(** * shunting-yard.c: a functional model of the calculator and its properties

    The development follows [src/shunting-yard.c] function by function.
    C strings are Rocq strings read up to their first NUL, [double] is the
    kernel's IEEE-754 binary64 type, the two stacks are lists (top first),
    and the functions of libc and libm the program calls ([strtod],
    [snprintf] with ["%a"], [pow], [tgamma]) are the fields of a [Libc]
    instance, so every theorem holds whatever those functions compute.
    The [int] variables are unbounded integers: inputs are shorter than
    [INT_MAX]. *)

From Stdlib Require Import Bool Arith ZArith Lia List Ascii String.
From Stdlib Require Import Floats.
From Stdlib Require DecimalString HexadecimalString DecimalZ DecimalN
  HexadecimalPos.
Import ListNotations.
Open Scope string_scope.
Open Scope Z_scope.

Set Implicit Arguments.

(** ** C strings *)

Module CStr.

Definition NUL : ascii := Ascii.zero.

(** [strlen]: the number of characters before the first NUL. *)
Fixpoint strlen (s : string) : nat :=
  match s with
  | EmptyString => 0%nat
  | String c s' => if Ascii.eqb c NUL then 0%nat else S (strlen s')
  end.

(** [str[i]]; the terminator is read at [i = strlen str]. *)
Definition char_at (s : string) (i : nat) : ascii :=
  match String.get i s with
  | Some c => if (i <? strlen s)%nat then c else NUL
  | None => NUL
  end.

(** [strchr(s, c) != NULL], as the offset of the first occurrence. *)
Fixpoint strchr (s : string) (c : ascii) : option nat :=
  match s with
  | EmptyString => None
  | String a s' =>
      if Ascii.eqb a c then Some 0%nat else option_map S (strchr s' c)
  end.

(** [strrchr(s, c)], as the offset of the last occurrence. *)
Fixpoint strrchr (s : string) (c : ascii) : option nat :=
  match s with
  | EmptyString => None
  | String a s' =>
      match strrchr s' c with
      | Some k => Some (S k)
      | None => if Ascii.eqb a c then Some 0%nat else None
      end
  end.

(** [strpbrk(s, accept) != NULL]: some character of [s] occurs in [accept]. *)
Fixpoint strpbrk (s accept : string) : bool :=
  match s with
  | EmptyString => false
  | String a s' =>
      match strchr accept a with
      | Some _ => true
      | None => strpbrk s' accept
      end
  end.

(** [isspace] in the "C" locale. *)
Definition isspace (c : ascii) : bool :=
  let n := nat_of_ascii c in
  (n =? 32)%nat || ((9 <=? n)%nat && (n <=? 13)%nat).

Definition isdigit (c : ascii) : bool :=
  let n := nat_of_ascii c in
  (48 <=? n)%nat && (n <=? 57)%nat.

(** [s[0]] of a string held in a stack item. *)
Definition head (s : string) : ascii :=
  match s with
  | EmptyString => NUL
  | String c _ => c
  end.

End CStr.
Import CStr.

(** ** Declarations of the headers

    [shunting-yard.h], [config.h] and [stack.h] are not part of the sources
    at hand; what the program uses of them is given here. *)

(** Modelled from the spec: the error codes of [shunting-yard.h], one per
    kind of the error taxonomy. *)
Inductive error_type : Type :=
| ERROR_SYNTAX
| ERROR_SYNTAX_STACK
| ERROR_SYNTAX_OPERAND
| ERROR_RIGHT_PAREN
| ERROR_LEFT_PAREN
| ERROR_UNRECOGNIZED
| ERROR_NO_INPUT.

(** Modelled from the spec: the column passed to [error], either a column
    of the input or the macro [NO_COL_NUM] ("no column" sentinel). *)
Inductive column : Type :=
| NO_COL_NUM
| Col (c : Z).

(** Modelled from the spec: the macro [is_operand] of [shunting-yard.h];
    a character belongs to an operand if it is a decimal digit or [.]. *)
Definition is_operand (c : ascii) : bool :=
  isdigit c || Ascii.eqb c ".".

(** Modelled from the spec: the macro [is_operator] of [shunting-yard.h];
    the operator symbols are [+ - * / ^ !]. *)
Definition is_operator (c : ascii) : bool :=
  Ascii.eqb c "+" || Ascii.eqb c "-" || Ascii.eqb c "*" || Ascii.eqb c "/"
  || Ascii.eqb c "^" || Ascii.eqb c "!".

(** Modelled from the spec: [stack_item] of [stack.h], a string with a
    flag; a stack is the list of its items, the top first. *)
Record stack_item : Type := mk_item { val : string; flags : bool }.

Definition stack : Type := list stack_item.

(** What the program takes from libc, libm and [config.h]. *)
Class Libc : Type := {
  (** [config.h]: the size of the buffer [num_to_str] prints into. *)
  DOUBLE_STR_LEN : Z;
  (** [strtod(str, NULL)]. *)
  strtod : string -> float;
  (** The text [snprintf(buf, n, "%a", num)] leaves in [buf]. *)
  snprintf_a : Z -> float -> string;
  pow : float -> float -> float;
  tgamma : float -> float;
  (** The value read from the local [double result] of [apply_operator]
      when no case of its second [switch] assigned it. *)
  uninitialised : float
}.

(** ** The program *)

Section Program.

Context {L : Libc}.

(** [const char *op_order[] = {"^", "*/", "+-", "("}]. *)
Definition op_order : list string := ["^"; "*/"; "+-"; "("].

(** The loop of [compare_operators] over [op_order]: the rank of [op] is
    the last index whose class shares a character with it, [-1] if none. *)
Fixpoint rank_loop (op : string) (classes : list string) (i rank : Z) : Z :=
  match classes with
  | [] => rank
  | cls :: rest =>
      rank_loop op rest (i + 1) (if strpbrk op cls then i else rank)
  end.

Definition compare_operators (op1 op2 : string) : bool :=
  let op1_rank := rank_loop op1 op_order 0 (-1) in
  let op2_rank := rank_loop op2 op_order 0 (-1) in
  op1_rank <? op2_rank.

Definition num_to_str (num : float) : string :=
  snprintf_a DOUBLE_STR_LEN num.

(** [strtod_unalloc]: [strtod], then [free]. *)
Definition strtod_unalloc (str : string) : float := strtod str.

(** [apply_operator]: [None] is [return false]; [Some s] is
    [return true] with [s] the operand stack it leaves. *)
Definition apply_operator (operator : ascii) (unary : bool)
           (operands : list string) : option (list string) :=
  match operands with
  | [] => None
  | top :: operands1 =>
      let val2 := strtod_unalloc top in
      if unary then
        if Ascii.eqb operator "+" then
          Some (num_to_str val2 :: operands1)
        else if Ascii.eqb operator "-" then
          Some (num_to_str (- val2)%float :: operands1)
        else if Ascii.eqb operator "!" then
          Some (num_to_str (tgamma (val2 + 1)%float) :: operands1)
        else None
      else
        match operands1 with
        | [] => None
        | top1 :: operands2 =>
            let val1 := strtod_unalloc top1 in
            let result :=
              if Ascii.eqb operator "+" then (val1 + val2)%float
              else if Ascii.eqb operator "-" then (val1 - val2)%float
              else if Ascii.eqb operator "*" then (val1 * val2)%float
              else if Ascii.eqb operator "/" then (val1 / val2)%float
              else if Ascii.eqb operator "^" then pow val1 val2
              else uninitialised in
            Some (num_to_str result :: operands2)
        end
  end.

Definition is_unary (operator prev_chr : ascii) : bool :=
  if Ascii.eqb prev_chr "!" && negb (Ascii.eqb operator "!") then false
  else
    is_operator prev_chr || Ascii.eqb prev_chr NUL
    || ((is_operand prev_chr || Ascii.eqb prev_chr ")")
        && Ascii.eqb operator "!").

(** [substr]: [len] characters of [str] from [start]. *)
Definition substr (str : string) (start len : nat) : string :=
  String.substring start len str.

(** [rtrim]: cut after the last character that is not white space. (On a
    string of white space only the C function reads before the buffer;
    the program calls it on texts that begin with an operand character.) *)
Fixpoint rtrim (str : string) : string :=
  match str with
  | EmptyString => EmptyString
  | String c s' =>
      match rtrim s' with
      | EmptyString => if isspace c then EmptyString else String c EmptyString
      | t => String c t
      end
  end.

(** The variables of [shunting_yard] that live across iterations. [trace]
    is no variable of the program: it lists the items handed to
    [apply_operator] so far, the latest first. *)
Record state : Type := mk_state {
  token_pos : Z;
  paren_depth : Z;
  paren_pos : Z;
  prev_chr : ascii;
  operands : list string;
  operators : stack;
  trace : list stack_item
}.

Definition initial : state :=
  {| token_pos := -1; paren_depth := 0; paren_pos := -1; prev_chr := NUL;
     operands := []; operators := []; trace := [] |}.

(** How an iteration of the scanning loop ends: the loop goes on, it was
    left by [break], or [error] was called before [goto exit]. *)
Inductive outcome : Type :=
| Running (st : state)
| Stopped (st : state)
| Failed (e : error_type) (col : column) (tr : list stack_item).

(** What the caller observes: the value returned, or the call of [error]. *)
Inductive result : Type :=
| Ok (d : float)
| Err (e : error_type) (col : column).

Definition is_some {A : Type} (o : option A) : bool :=
  match o with Some _ => true | None => false end.

Definition same_place (p q : option nat) : bool :=
  match p, q with
  | Some a, Some b => (a =? b)%nat
  | None, None => true
  | _, _ => false
  end.

(** The syntax check of a finished operand. *)
Definition malformed (operand : string) : bool :=
  String.eqb operand "."
  || is_some (strchr operand " ")
  || negb (same_place (strchr operand ".") (strrchr operand ".")).

(** [rtrim(substr(str, token_pos, i - token_pos))]: the text of the
    operand that ends at index [i]. *)
Definition span_text (str : string) (i : nat) (st : state) : string :=
  let start := Z.to_nat (token_pos st) in
  rtrim (substr str start (i - start)).

(** The branch [else if (token_pos != -1)]: the end of an operand. *)
Definition end_of_operand (str : string) (i : nat) (st : state) : outcome :=
  let operand := span_text str i st in
  if malformed operand then
    Failed ERROR_SYNTAX_OPERAND (Col (token_pos st)) (trace st)
  else
    Running {| token_pos := -1; paren_depth := paren_depth st;
               paren_pos := paren_pos st; prev_chr := prev_chr st;
               operands := operand :: operands st;
               operators := operators st; trace := trace st |}.

(** [item = stack_pop_item(operators)] followed by
    [apply_operator(item->val[0], item->flags, operands)], the operator
    stack being left as [rest]. *)
Definition pop_and_apply (item : stack_item) (rest : stack) (st : state)
  : option state :=
  match apply_operator (head (val item)) (flags item) (operands st) with
  | None => None
  | Some operands' =>
      Some {| token_pos := token_pos st; paren_depth := paren_depth st;
              paren_pos := paren_pos st; prev_chr := prev_chr st;
              operands := operands'; operators := rest;
              trace := item :: trace st |}
  end.

Definition push_operator (item : stack_item) (st : state) : state :=
  {| token_pos := token_pos st; paren_depth := paren_depth st;
     paren_pos := paren_pos st; prev_chr := prev_chr st;
     operands := operands st; operators := item :: operators st;
     trace := trace st |}.

(** The branch [if (is_operator(str[i]))]. *)
Definition on_operator (c : ascii) (i : nat) (st : state) : outcome :=
  let chr_str := String c EmptyString in
  let unary := is_unary c (prev_chr st) in
  match operators st with
  | top :: rest =>
      if ((unary && flags top) || negb unary)
         && compare_operators (val top) chr_str
      then
        match pop_and_apply top rest st with
        | None => Failed ERROR_SYNTAX (Col (Z.of_nat i)) (top :: trace st)
        | Some st' => Running (push_operator (mk_item chr_str unary) st')
        end
      else Running (push_operator (mk_item chr_str unary) st)
  | [] => Running (push_operator (mk_item chr_str unary) st)
  end.

(** The branch [else if (str[i] == '(')]. *)
Definition on_left_paren (i : nat) (st : state) : state :=
  let depth := paren_depth st + 1 in
  {| token_pos := token_pos st; paren_depth := depth;
     paren_pos := if depth =? 1 then Z.of_nat i else paren_pos st;
     prev_chr := prev_chr st; operands := operands st;
     operators := mk_item "(" false :: operators st; trace := trace st |}.

(** The [while] loop of the branch for [')']; [ops] is the operator stack
    at the start of an iteration, [st] holds the other variables. *)
Fixpoint right_paren_loop (i : nat) (ops : stack) (st : state) : outcome :=
  match ops with
  | [] =>
      Running {| token_pos := token_pos st; paren_depth := paren_depth st;
                 paren_pos := paren_pos st; prev_chr := prev_chr st;
                 operands := operands st; operators := [];
                 trace := trace st |}
  | item :: rest =>
      if Ascii.eqb (head (val item)) "(" then
        Running {| token_pos := token_pos st;
                   paren_depth := paren_depth st - 1;
                   paren_pos := paren_pos st; prev_chr := prev_chr st;
                   operands := operands st; operators := rest;
                   trace := trace st |}
      else
        match pop_and_apply item rest st with
        | None => Failed ERROR_SYNTAX (Col (Z.of_nat i)) (item :: trace st)
        | Some st' => right_paren_loop i rest st'
        end
  end.

(** The branch [else if (str[i] == ')')]. *)
Definition on_right_paren (i : nat) (st : state) : outcome :=
  if paren_depth st =? 0 then
    Failed ERROR_RIGHT_PAREN (Col (Z.of_nat i)) (trace st)
  else right_paren_loop i (operators st) st.

Definition newline : ascii := ascii_of_nat 10.

(** The label [skip]: the end of an iteration. *)
Definition skip (c : ascii) (st : state) : outcome :=
  if Ascii.eqb c newline then Stopped st
  else
    Running {| token_pos := token_pos st; paren_depth := paren_depth st;
               paren_pos := paren_pos st; prev_chr := c;
               operands := operands st; operators := operators st;
               trace := trace st |}.

Definition and_then (o : outcome) (k : state -> outcome) : outcome :=
  match o with
  | Running st => k st
  | _ => o
  end.

(** The statements after the operand check: operators, parentheses,
    unknown characters, then [skip]. *)
Definition dispatch (c : ascii) (i : nat) (st : state) : outcome :=
  if is_operator c then and_then (on_operator c i st) (skip c)
  else if Ascii.eqb c "(" then skip c (on_left_paren i st)
  else if Ascii.eqb c ")" then and_then (on_right_paren i st) (skip c)
  else if negb (Ascii.eqb c NUL) && negb (Ascii.eqb c newline) then
    Failed ERROR_UNRECOGNIZED (Col (Z.of_nat i)) (trace st)
  else skip c st.

(** The body of the [for] loop at index [i]. *)
Definition body (str : string) (i : nat) (st : state) : outcome :=
  let c := char_at str i in
  if Ascii.eqb c " " then Running st
  else if is_operand c then
    skip c (if token_pos st =? -1 then
              {| token_pos := Z.of_nat i; paren_depth := paren_depth st;
                 paren_pos := paren_pos st; prev_chr := prev_chr st;
                 operands := operands st; operators := operators st;
                 trace := trace st |}
            else st)
  else if negb (token_pos st =? -1) then
    and_then (end_of_operand str i st) (dispatch c i)
  else dispatch c i st.

(** The loop after its first [n] iterations, [i = 0 .. n-1]. *)
Fixpoint scan (str : string) (n : nat) : outcome :=
  match n with
  | O => Running initial
  | S k => and_then (scan str k) (body str k)
  end.

(** The [while] loop at the end of the string: [Some] of the operands left
    when every operator applied, with the trace extended. *)
Fixpoint drain (ops : stack) (operands : list string)
         (tr : list stack_item) : option (list string) * list stack_item :=
  match ops with
  | [] => (Some operands, tr)
  | item :: rest =>
      match apply_operator (head (val item)) (flags item) operands with
      | None => (None, item :: tr)
      | Some operands' => drain rest operands' (item :: tr)
      end
  end.

(** The statements after the [for] loop. *)
Definition finish (st : state) : result * list stack_item :=
  if negb (paren_depth st =? 0) then
    (Err ERROR_LEFT_PAREN (Col (paren_pos st)), trace st)
  else
    match drain (operators st) (operands st) (trace st) with
    | (None, tr) => (Err ERROR_SYNTAX_STACK NO_COL_NUM, tr)
    | (Some [], tr) => (Err ERROR_NO_INPUT NO_COL_NUM, tr)
    | (Some (top :: _), tr) => (Ok (strtod_unalloc top), tr)
    end.

(** [shunting_yard] with the trace of its calls of [apply_operator]. *)
Definition shunting_yard_traced (str : string) : result * list stack_item :=
  match scan str (S (strlen str)) with
  | Running st | Stopped st => finish st
  | Failed e col tr => (Err e col, tr)
  end.

Definition shunting_yard (str : string) : result :=
  fst (shunting_yard_traced str).

(** The items [shunting_yard] hands to [apply_operator], in call order. *)
Definition applied (str : string) : list stack_item :=
  rev (snd (shunting_yard_traced str)).

End Program.

(** ** A reference libc

    An instance of [Libc] on which the program can be run inside Rocq. Its
    [strtod] reads decimal literals, as the quotient of the integer the
    digits spell by a power of ten (exact on short integer literals), and
    the hexadecimal texts of its [snprintf_a], which ignores the size of
    the buffer; its [pow] and [tgamma] cover integer arguments by repeated
    multiplication, exact while the products stay below [2^53], and answer
    NaN elsewhere. *)

Module Ref.

Definition sign_text (s : bool) : string := if s then "-" else "".

Definition hex_text (m : positive) : string :=
  HexadecimalString.NilEmpty.string_of_uint (Pos.to_hex_uint m).

Definition exp_text (e : Z) : string :=
  (if e <? 0 then "" else "+")
  ++ DecimalString.NilEmpty.string_of_int (Z.to_int e).

(** The text of a number: [0x<mantissa>p<exponent>], a hexadecimal
    floating constant of C that denotes it exactly. *)
Definition print_sf (x : spec_float) : string :=
  match x with
  | S754_zero s => sign_text s ++ "0x0p+0"
  | S754_infinity s => sign_text s ++ "inf"
  | S754_nan => "nan"
  | S754_finite s m e => sign_text s ++ "0x" ++ hex_text m ++ "p" ++ exp_text e
  end.

Definition snprintf_a (n : Z) (num : float) : string :=
  print_sf (Prim2SF num).

(** [s] cut at the first [c]. *)
Fixpoint split_at (c : ascii) (s : string) : option (string * string) :=
  match s with
  | EmptyString => None
  | String a s' =>
      if Ascii.eqb a c then Some (EmptyString, s')
      else
        match split_at c s' with
        | Some (l, r) => Some (String a l, r)
        | None => None
        end
  end.

Definition read_exp (s : string) : option Z :=
  let digits := match s with
                | String "+" s' => s'
                | _ => s
                end in
  option_map Z.of_int (DecimalString.NilEmpty.int_of_string digits).

Definition read_hex (neg : bool) (s : string) : option spec_float :=
  match split_at "p" s with
  | None => None
  | Some (mant, ex) =>
      match HexadecimalString.NilEmpty.uint_of_string mant, read_exp ex with
      | Some u, Some e =>
          match Pos.of_hex_uint u with
          | N0 => Some (S754_zero neg)
          | Npos m => Some (S754_finite neg m e)
          end
      | _, _ => None
      end
  end.

(** The decimal digits of [s] up to its first other character: the
    integer they spell, ignoring the point, and the number of digits after
    the point. *)
Fixpoint read_dec (s : string) (acc : Z) (frac : option nat) : Z * nat :=
  match s with
  | EmptyString => (acc, match frac with Some k => k | None => 0%nat end)
  | String c s' =>
      if isdigit c then
        read_dec s' (10 * acc + (Z.of_nat (nat_of_ascii c) - 48))
                 (option_map S frac)
      else if Ascii.eqb c "." && negb (is_some frac) then
        read_dec s' acc (Some 0%nat)
      else (acc, match frac with Some k => k | None => 0%nat end)
  end.

Definition of_Z (z : Z) : float := PrimFloat.of_uint63 (Uint63.of_Z z).

Definition strtod_dec (s : string) : float :=
  let (n, k) := read_dec s 0 None in
  (of_Z n / of_Z (10 ^ Z.of_nat k))%float.

Definition read_sf (s : string) : option spec_float :=
  let (neg, body) := match s with
                     | String "-" s' => (true, s')
                     | _ => (false, s)
                     end in
  match body with
  | String "0" (String "x" r) => read_hex neg r
  | _ =>
      if String.eqb body "inf" then Some (S754_infinity neg)
      else if String.eqb body "nan" then Some S754_nan
      else None
  end.

Definition strtod (s : string) : float :=
  match read_sf s with
  | Some x => SF2Prim x
  | None => strtod_dec s
  end.

(** The integer a number equals, if any. *)
Definition to_integer (x : float) : option Z :=
  match Prim2SF x with
  | S754_zero _ => Some 0
  | S754_finite s m e =>
      let n := if 0 <=? e then Z.pos m * 2 ^ e
               else Z.pos m / 2 ^ (- e) in
      if (0 <=? e) || (Z.pos m mod 2 ^ (- e) =? 0)
      then Some (if s then - n else n) else None
  | _ => None
  end.

Definition pow (x y : float) : float :=
  match to_integer y with
  | Some (Zpos n) => Pos.iter (fun acc => (acc * x)%float) 1%float n
  | Some Z0 => 1%float
  | Some (Zneg n) => (1 / Pos.iter (fun acc => (acc * x)%float) 1 n)%float
  | None => nan
  end.

(** [(n-1)!], as the product [1 * 1 * 2 * ... * (n-1)]. *)
Fixpoint factorial_below (n : nat) : float :=
  match n with
  | O => 1%float
  | S k => (factorial_below k * of_Z (Z.max 1 (Z.of_nat k)))%float
  end.

Definition tgamma (x : float) : float :=
  match to_integer x with
  | Some (Zpos n) => factorial_below (Pos.to_nat n)
  | _ => nan
  end.

Definition libc : Libc :=
  Build_Libc 32 strtod snprintf_a pow tgamma 0%float.

End Ref.

(** ** The libc of the C standard

    Modelled from the spec: the "round-trip-safe text form" of the
    operands is what [snprintf] prints with ["%a"] and [strtod] reads back.
    Both are functions of the C library, no code of this repository; they
    are modelled here from the documentation of the library (ISO C, the
    conversion specifier [a] of [fprintf] and the hexadecimal form of
    [strtod]), for the binary64 [double]:
    - ["%a"] prints a finite number as [[-]0xh.hhhhp+d] or
      [[-]0xh.hhhhp-d], with one hexadecimal digit before the point, 1 for
      a normal number and 0 for a subnormal one or zero, as many digits
      after it as the exact value takes (no point when there is none),
      and the exponent of 2 in decimal with its sign; infinities as [inf] and [-inf], NaN as [nan];
    - [snprintf] with the size [n] keeps the first [n - 1] characters;
    - [strtod] skips white space, reads a sign, and after [0x] or [0X]
      hexadecimal digits with an optional point and an optional exponent
      [p] or [P]; the value is rounded to the nearest [double], ties to
      even; it reads [inf] and [nan] in either case, and a decimal text
      otherwise. *)

Module C99.

(** The hexadecimal digit of value [d], in lower case as ["%a"] prints
    it. *)
Definition hex_digit (d : Z) : ascii :=
  ascii_of_nat (Z.to_nat (if d <? 10 then d + 48 else d + 87)).

(** The value of a hexadecimal digit, of either case. *)
Definition hex_value (c : ascii) : option Z :=
  let n := Z.of_nat (nat_of_ascii c) in
  if (48 <=? n) && (n <=? 57) then Some (n - 48)
  else if (97 <=? n) && (n <=? 102) then Some (n - 87)
  else if (65 <=? n) && (n <=? 70) then Some (n - 55)
  else None.

(** The [n] low hexadecimal digits of [x], the most significant first. *)
Fixpoint hex_digits (n : nat) (x : Z) : list Z :=
  match n with
  | O => []
  | S k => (hex_digits k (x / 16) ++ [x mod 16])%list
  end.

(** [ds] without the zeros that end it. *)
Fixpoint strip (ds : list Z) : list Z :=
  match ds with
  | [] => []
  | d :: r =>
      match strip r with
      | [] => if d =? 0 then [] else [d]
      | r' => d :: r'
      end
  end.

(** The text of the digits [ds]. *)
Fixpoint digits_text (ds : list Z) : string :=
  match ds with
  | [] => ""
  | d :: r => String (hex_digit d) (digits_text r)
  end.

(** The exponent: a sign, always, and decimal digits, at least one. *)
Definition exponent_text (e : Z) : string :=
  (if e <? 0 then "-" else "+")
  ++ DecimalString.NilEmpty.string_of_uint (N.to_uint (Z.to_N (Z.abs e))).

(** Modelled from the spec: the text of ["%a"], from the documentation
    of [fprintf]. The mantissa [m] of a [double] has 53 bits: the digit
    before the point is its bit 52, the 13 digits after it are the 52
    bits below, printed without the zeros that end them, and the
    exponent is that of bit 52. *)
Definition print_a (x : spec_float) : string :=
  match x with
  | S754_zero s => Ref.sign_text s ++ "0x0p+0"
  | S754_infinity s => Ref.sign_text s ++ "inf"
  | S754_nan => "nan"
  | S754_finite s m e =>
      let lead := Z.pos m / 2 ^ 52 in
      let fraction := strip (hex_digits 13 (Z.pos m mod 2 ^ 52)) in
      Ref.sign_text s ++ "0x"
      ++ String (hex_digit lead)
           ((match fraction with
             | [] => ""
             | _ => String "." (digits_text fraction)
             end)
            ++ String "p" (exponent_text (e + 52)))
  end.

(** Modelled from the spec: [snprintf(buf, n, "%a", num)], from the
    documentation of [snprintf]: at most [n - 1] characters are written,
    then the NUL. *)
Definition snprintf_a (n : Z) (num : float) : string :=
  substring 0 (Z.to_nat (n - 1)) (print_a (Prim2SF num)).

(** The hexadecimal digits [s] starts with, and what follows them. *)
Fixpoint span_hex (s : string) : list Z * string :=
  match s with
  | EmptyString => ([], s)
  | String c r =>
      match hex_value c with
      | Some d => let (ds, rest) := span_hex r in (d :: ds, rest)
      | None => ([], s)
      end
  end.

(** The number the digits [ds] spell, the most significant first. *)
Definition hex_number (ds : list Z) : Z :=
  fold_left (fun acc d => 16 * acc + d) ds 0.

(** The decimal digits [s] starts with. *)
Fixpoint take_digits (s : string) : string :=
  match s with
  | EmptyString => s
  | String c r =>
      let n := nat_of_ascii c in
      if ((48 <=? n) && (n <=? 57))%nat then String c (take_digits r)
      else EmptyString
  end.

(** The number the decimal digits [s] starts with spell. *)
Definition dec_number (s : string) : Z :=
  match DecimalString.NilEmpty.uint_of_string (take_digits s) with
  | Some u => Z.of_N (N.of_uint u)
  | None => 0
  end.

(** The exponent after [p]: an optional sign and decimal digits. *)
Definition read_exponent (s : string) : Z :=
  match s with
  | String "-" r => - dec_number r
  | String "+" r => dec_number r
  | _ => dec_number s
  end.

(** Modelled from the spec: the hexadecimal form of [strtod] after
    [0x], from the documentation of [strtod]: digits, an optional point
    and more digits, an optional exponent of 2; the value, the integer the
    digits spell times 2 to the exponent less four for each digit after
    the point, is rounded to the nearest [double] by [binary_normalize],
    the rounding of IEEE 754 in the standard library of Rocq. *)
Definition read_hex_float (neg : bool) (s : string) : spec_float :=
  let (int_digits, r1) := span_hex s in
  let (frac_digits, r2) :=
    match r1 with
    | String "." r => span_hex r
    | _ => ([], r1)
    end in
  let exponent :=
    match r2 with
    | String c r =>
        if Ascii.eqb c "p" || Ascii.eqb c "P" then read_exponent r else 0
    | EmptyString => 0
    end in
  let mantissa := hex_number (int_digits ++ frac_digits)%list in
  binary_normalize prec emax (if neg then - mantissa else mantissa)
                   (exponent - 4 * Z.of_nat (List.length frac_digits)) neg.

(** [s] after the white space it starts with. *)
Fixpoint skip_spaces (s : string) : string :=
  match s with
  | String c r =>
      let n := nat_of_ascii c in
      if ((n =? 32) || ((9 <=? n) && (n <=? 13)))%nat then skip_spaces r
      else s
  | EmptyString => s
  end.

Definition lower (c : ascii) : ascii :=
  let n := nat_of_ascii c in
  if ((65 <=? n) && (n <=? 90))%nat then ascii_of_nat (n + 32) else c.

Fixpoint lower_text (s : string) : string :=
  match s with
  | EmptyString => s
  | String c r => String (lower c) (lower_text r)
  end.

(** Modelled from the spec: the texts of [strtod] that are no decimal
    number, from the documentation of [strtod]: white space, a sign, then
    a hexadecimal number, [inf] or [nan]. *)
Definition read_float (s : string) : option spec_float :=
  let s := skip_spaces s in
  let (neg, body) := match s with
                     | String "-" r => (true, r)
                     | String "+" r => (false, r)
                     | _ => (false, s)
                     end in
  match body with
  | String "0" (String "x" r) | String "0" (String "X" r) =>
      Some (read_hex_float neg r)
  | _ =>
      if prefix "inf" (lower_text body) then Some (S754_infinity neg)
      else if prefix "nan" (lower_text body) then Some S754_nan
      else None
  end.

(** A decimal text: the sign, then the digits and the point as the
    reference libc reads them. *)
Definition strtod_decimal (s : string) : float :=
  match skip_spaces s with
  | String "-" r => (- Ref.strtod_dec r)%float
  | String "+" r => Ref.strtod_dec r
  | t => Ref.strtod_dec t
  end.

(** Modelled from the spec: [strtod(str, NULL)], from the documentation
    of [strtod]. *)
Definition strtod (s : string) : float :=
  match read_float s with
  | Some x => SF2Prim x
  | None => strtod_decimal s
  end.

(** The program on this libc, with [size] for [DOUBLE_STR_LEN], which
    [config.h] defines; [pow] and [tgamma] are those of the reference
    libc. *)
Definition libc (size : Z) : Libc :=
  Build_Libc size strtod snprintf_a Ref.pow Ref.tgamma 0%float.

End C99.


(** ** Invariants of the scanning loop *)

Definition is_paren (item : stack_item) : bool :=
  Ascii.eqb (head (val item)) "(".

(** The item carries one of [+ - * / ^ !]. *)
Definition symbol_ok (item : stack_item) : Prop :=
  is_operator (head (val item)) = true.

Fixpoint open_parens (ops : stack) : nat :=
  match ops with
  | [] => 0%nat
  | item :: rest =>
      if is_paren item then S (open_parens rest) else open_parens rest
  end.

(** Every entry of the operator stack is a left parenthesis or an
    operator symbol. *)
Definition stack_ok (ops : stack) : Prop :=
  Forall (fun item => is_paren item = true \/ symbol_ok item) ops.

(** [paren_depth] counts the left parentheses on the operator stack, and
    no left parenthesis was handed to [apply_operator]. *)
Definition inv (st : state) : Prop :=
  stack_ok (operators st)
  /\ paren_depth st = Z.of_nat (open_parens (operators st))
  /\ Forall symbol_ok (trace st).

Definition outcome_inv (o : outcome) : Prop :=
  match o with
  | Running st | Stopped st => inv st
  | Failed _ _ tr => Forall symbol_ok tr
  end.

(** The loop reached the state [st] after [n] iterations, or left by
    [break] before. *)
Definition alive {L : Libc} (str : string) (n : nat) (st : state) : Prop :=
  scan str n = Running st \/ scan str n = Stopped st.

(** What an iteration that does not fail does to the parenthesis
    variables: nothing, or the effect of a [(], or that of a [)]. *)
Definition paren_effect (c : ascii) (i : nat) (st st' : state) : Prop :=
  (paren_depth st' = paren_depth st /\ paren_pos st' = paren_pos st)
  \/ (c = "("%char
      /\ paren_depth st' = paren_depth st + 1
      /\ paren_pos st'
         = if paren_depth st + 1 =? 1 then Z.of_nat i else paren_pos st)
  \/ (c = ")"%char
      /\ paren_depth st' = paren_depth st - 1
      /\ paren_pos st' = paren_pos st).

(** The rank [compare_operators] gives a one-character operator: the
    position of its class in [op_order], the tightest class first, and
    [-1] for a character of no class, such as [!]. *)
Definition precedence (c : ascii) : Z :=
  if Ascii.eqb "(" c then 3
  else if Ascii.eqb "+" c || Ascii.eqb "-" c then 2
  else if Ascii.eqb "*" c || Ascii.eqb "/" c then 1
  else if Ascii.eqb "^" c then 0
  else -1.

(** An input of [n] spaces. *)
Fixpoint blank (n : nat) : string :=
  match n with
  | O => EmptyString
  | S k => String " " (blank k)
  end.

(** ** The rest of the program: arguments and diagnostics *)

(** The characters of a C string: those before its first NUL. *)
Definition c_str (s : string) : string := substring 0 (strlen s) s.

(** [strcat(dst, src)]: the text [dst] holds afterwards. *)
Definition strcat (dst src : string) : string := c_str dst ++ c_str src.

(** The first loop of [join_argv]: [len] after [count] iterations;
    [src[i]] is [nth i src ""]. *)
Fixpoint argv_len (count : nat) (src : list string) : Z :=
  match count with
  | O => 0
  | S k => argv_len k src + (Z.of_nat (strlen (nth k src "")) + 1)
  end.

(** The second loop of [join_argv] after its iterations [i = 1 .. n], from
    the zeroed buffer of [calloc]. *)
Fixpoint join_loop (n : nat) (src : list string) : string :=
  match n with
  | O => ""
  | S k =>
      let str := join_loop k src in
      let i := S k in
      strcat (if (1 <? i)%nat then strcat str " " else str) (nth i src "")
  end.

Definition join_argv (count : nat) (src : list string) : string :=
  join_loop (count - 1) src.

(** The bytes [join_argv] allocates: [calloc(count, len + 1)]. *)
Definition join_argv_size (count : nat) (src : list string) : Z :=
  Z.of_nat count * (argv_len count src + 1).



Section Diagnostics.

(** [config.h]: the width of the terminal, the size of [error_str]. *)
Variable TERM_WIDTH : Z.


End Diagnostics.


(** The loop of [trim_double] from index [i] down: the text left in
    [str]. Writing NUL at [i] leaves the characters before [i]. *)
Fixpoint trim_loop (i : nat) (str : string) : string :=
  match i with
  | O => c_str str
  | S k =>
      if Ascii.eqb (char_at str i) "." then substring 0 i str
      else if negb (Ascii.eqb (char_at str i) "0") then c_str str
      else trim_loop k (substring 0 i str)
  end.

(** The conversion of an [int] to [double]. *)
Definition double_of_int (z : Z) : float :=
  if z <? 0 then (- PrimFloat.of_uint63 (Uint63.of_Z (- z)))%float
  else PrimFloat.of_uint63 (Uint63.of_Z z).

Section TrimDouble.

Context {L : Libc}.

(** [float.h] and [config.h]. *)
Variables DECIMAL_DIG MIN_E_DIGITS : Z.

(** The text [snprintf(str, n, fmt, prec, num)] leaves in [str], [fmt]
    being ["%.*e"] ([true]) or ["%.*f"] ([false]). *)
Variable snprintf_prec : Z -> bool -> Z -> float -> string.

Definition trim_double (num : float) : string :=
  let scientific :=
    PrimFloat.leb (pow (double_of_int 10) (double_of_int MIN_E_DIGITS)) num in
  let str := snprintf_prec (DECIMAL_DIG + 1) scientific MIN_E_DIGITS num in
  trim_loop (strlen str - 1) str.

End TrimDouble.

(** ** The line the loop reads *)

(** The number of characters before the first NUL or newline. *)
Fixpoint line_len (s : string) : nat :=
  match s with
  | EmptyString => 0%nat
  | String c s' =>
      if Ascii.eqb c NUL || Ascii.eqb c newline then 0%nat
      else S (line_len s')
  end.

Definition first_line (s : string) : string := substring 0 (line_len s) s.

(** The number of [c] among the first [n] characters of [str]. *)
Fixpoint occurrences (c : ascii) (str : string) (n : nat) : nat :=
  match n with
  | O => 0%nat
  | S k =>
      (if Ascii.eqb (char_at str k) c then 1 else 0) + occurrences c str k
  end.

(** The character that is none of those the loop knows. *)
Definition unrecognized (c : ascii) : Prop :=
  c <> " "%char /\ is_operand c = false /\ is_operator c = false
  /\ c <> "("%char /\ c <> ")"%char /\ c <> NUL /\ c <> newline.

(** What reading [c] adds to the depth. *)
Definition depth_change (c : ascii) : Z :=
  (if Ascii.eqb c "(" then 1 else 0) - (if Ascii.eqb c ")" then 1 else 0).

(** Something to compute with was read: an operand is open or stacked, or
    an operator is stacked. *)
Definition loaded (st : state) : Prop :=
  token_pos st <> -1 \/ operands st <> []
  \/ Exists (fun item => is_paren item = false) (operators st).

(** A decimal literal: operand characters only, with at most one point,
    and not the point alone. *)
Definition literal (t : string) : Prop :=
  t <> EmptyString /\ t <> "."
  /\ (forall c, In c (list_ascii_of_string t) -> is_operand c = true)
  /\ (count_occ ascii_dec (list_ascii_of_string t) "."%char <= 1)%nat.

(** The text [t] stands in the input, before its NUL: it is made of the
    characters of [str] from some index [start] on. *)
Definition from_input (str t : string) : Prop :=
  exists start,
    (start + String.length t <= strlen str)%nat
    /\ t = substring start (String.length t) str.

(** A text of the operand stack is a literal taken from the input [str]
    or was printed by [num_to_str]. *)
Definition operand_ok {L : Libc} (str t : string) : Prop :=
  (literal t /\ from_input str t) \/ exists d, t = num_to_str d.

(** The characters from [token_pos] on are those of an open operand. *)
Definition span_open (str : string) (n : nat) (st : state) : Prop :=
  token_pos st = -1
  \/ exists j,
      token_pos st = Z.of_nat j /\ (j < n)%nat
      /\ is_operand (char_at str j) = true
      /\ forall k, (j <= k < n)%nat ->
                   is_operand (char_at str k) = true
                   \/ char_at str k = " "%char.

Definition outcome_operands_ok {L : Libc} (str : string) (o : outcome)
  : Prop :=
  match o with
  | Running st | Stopped st => Forall (operand_ok str) (operands st)
  | Failed _ _ _ => True
  end.

(** [n] characters [0]. *)
Fixpoint zeros (n : nat) : string :=
  match n with
  | O => EmptyString
  | S k => String "0" (zeros k)
  end.




(** The same libc and [config.h], with [u] where the local [result] of
    [apply_operator] is read before any case assigned it: what another call
    may find there. *)
Definition with_uninitialised (L : Libc) (u : float) : Libc :=
  Build_Libc (@DOUBLE_STR_LEN L) (@strtod L) (@snprintf_a L) (@pow L)
             (@tgamma L) u.

(** The items on which [apply_operator] reads its local [result] without
    having assigned it: the binary ones that no case of its second
    [switch] names. *)
Definition reads_uninitialised (item : stack_item) : bool :=
  let operator := head (val item) in
  negb (flags item)
  && negb (Ascii.eqb operator "+" || Ascii.eqb operator "-"
           || Ascii.eqb operator "*" || Ascii.eqb operator "/"
           || Ascii.eqb operator "^").

(** The items handed to [apply_operator] up to an outcome. *)
Definition outcome_trace (o : outcome) : list stack_item :=
  match o with
  | Running st | Stopped st => trace st
  | Failed _ _ tr => tr
  end.

(** No item of [tr] makes [apply_operator] read its uninitialised
    [result]. *)
Definition initialised (tr : list stack_item) : Prop :=
  Forall (fun item => reads_uninitialised item = false) tr.

(** [apply_operator operator unary operands] returns true and leaves one
    new operand over [rest]: the text [num_to_str] prints for [v]. With a
    libc whose [strtod] reads back what [snprintf] prints with ["%a"] into
    [DOUBLE_STR_LEN] bytes, the value of the new operand is [v]. *)
Definition pushes {L : Libc} (operator : ascii) (unary : bool)
           (operands rest : list string) (v : float) : Prop :=
  exists t,
    apply_operator operator unary operands = Some (t :: rest)
    /\ t = num_to_str v
    /\ ((forall d, strtod (snprintf_a DOUBLE_STR_LEN d) = d) ->
        strtod_unalloc t = v).

(** ** Properties *)

Section Properties.

Context {L : Libc}.

(** *** Unary determination *)

Lemma is_operator_iff (c : ascii) :
  is_operator c = true <->
  c = "+"%char \/ c = "-"%char \/ c = "*"%char \/ c = "/"%char
  \/ c = "^"%char \/ c = "!"%char.
Proof.
  unfold is_operator.
  repeat rewrite orb_true_iff.
  repeat rewrite Ascii.eqb_eq.
  tauto.
Qed.

(** C3. [is_unary] depends on its two characters only, and answers true
    exactly when the previous character is an operator symbol, or is NUL
    (nothing came before), or the operator is [!] and the previous
    character is an operand character or [)]; except that after [!] an
    operator other than [!] is not unary. *)
Theorem is_unary_spec (operator prev : ascii) :
  is_unary operator prev = true <->
  ~ (prev = "!"%char /\ operator <> "!"%char)
  /\ (is_operator prev = true
      \/ prev = NUL
      \/ (operator = "!"%char
          /\ (is_operand prev = true \/ prev = ")"%char))).
Proof.
  unfold is_unary.
  destruct (Ascii.eqb_spec prev "!") as [Hp | Hp];
    destruct (Ascii.eqb_spec operator "!") as [Ho | Ho]; simpl.
  - subst. split; [intros _ | reflexivity].
    split; [intros [_ H]; now apply H | now left].
  - split; [discriminate | intros [H _]; exfalso; apply H; now split].
  - rewrite andb_true_r, !orb_true_iff, !Ascii.eqb_eq.
    split.
    + intros H. split; [intros [H1 _]; contradiction | tauto].
    + intros [_ H]. tauto.
  - rewrite andb_false_r, orb_false_r, orb_true_iff, Ascii.eqb_eq.
    split.
    + intros H. split; [intros [H1 _]; contradiction | tauto].
    + intros [_ [H | [H | [H _]]]]; [now left | now right | contradiction].
Qed.

(** *** The evaluator *)

(** C2. [apply_operator] fails exactly on underflow (no operand, or a
    single one for a binary operator) and on a unary operator other than
    [+ - !]. Otherwise a unary operator replaces the top operand, of value
    [b], by one operand of value [b], [-b] or [tgamma(b+1)], and a binary
    one replaces the two top operands, of values [b] and [a], by one
    operand of value [a+b], [a-b], [a*b], [a/b] or [pow(a,b)], the
    operands below being kept: the operand pushed is the text
    [num_to_str] prints for that value, and [strtod_unalloc] reads that
    value back from it as soon as libc's [strtod] reads back what ["%a"]
    prints. The division is the IEEE one, which succeeds on a zero divisor
    with an infinity or NaN. *)
Theorem apply_operator_spec (operator : ascii) (unary : bool)
        (operands : list string) :
  (apply_operator operator unary operands = None <->
   operands = []
   \/ (unary = false /\ List.length operands = 1%nat)
   \/ (unary = true /\ operator <> "+"%char /\ operator <> "-"%char
       /\ operator <> "!"%char))
  /\ (forall top rest,
         operands = top :: rest -> unary = true ->
         let b := strtod_unalloc top in
         (operator = "+"%char -> pushes operator unary operands rest b)
         /\ (operator = "-"%char ->
             pushes operator unary operands rest (- b)%float)
         /\ (operator = "!"%char ->
             pushes operator unary operands rest (tgamma (b + 1)%float)))
  /\ (forall top top1 rest,
         operands = top :: top1 :: rest -> unary = false ->
         let b := strtod_unalloc top in
         let a := strtod_unalloc top1 in
         (operator = "+"%char ->
          pushes operator unary operands rest (a + b)%float)
         /\ (operator = "-"%char ->
             pushes operator unary operands rest (a - b)%float)
         /\ (operator = "*"%char ->
             pushes operator unary operands rest (a * b)%float)
         /\ (operator = "/"%char ->
             pushes operator unary operands rest (a / b)%float)
         /\ (operator = "^"%char ->
             pushes operator unary operands rest (pow a b)))
  /\ ((1 / 0)%float = infinity /\ (-1 / 0)%float = neg_infinity
      /\ (0 / 0)%float = nan).
Proof.
  split; [| split; [| split]].
  - unfold apply_operator.
    destruct operands as [| top [| top1 rest]], unary; simpl;
      repeat match goal with
             | |- context [Ascii.eqb ?a ?b] =>
                 destruct (Ascii.eqb_spec a b); subst
             end;
      split; intros H; try discriminate; try reflexivity; auto;
      try (right; right; repeat split; congruence);
      try (right; left; split; reflexivity);
      try (destruct H as [H | [[H H'] | (H & H1 & H2 & H3)]];
           congruence).
  - intros top rest -> -> b. subst b.
    repeat split; intros ->; eexists;
      (split; [reflexivity | split; [reflexivity |]]);
      intros Hrt; unfold strtod_unalloc, num_to_str; apply Hrt.
  - intros top top1 rest -> -> b a. subst a b.
    repeat split; intros ->; eexists;
      (split; [reflexivity | split; [reflexivity |]]);
      intros Hrt; unfold strtod_unalloc, num_to_str; apply Hrt.
  - repeat split; reflexivity.
Qed.

(** *** The scanning loop *)

Lemma scan_step (str : string) (k : nat) :
  scan str (S k) = and_then (scan str k) (body str k).
Proof. reflexivity. Qed.

Lemma scan_failed_mono (str : string) (k n : nat) e col tr :
  scan str k = Failed e col tr -> (k <= n)%nat ->
  scan str n = Failed e col tr.
Proof.
  intros Hk Hle. induction Hle as [| n Hle IH]; [assumption |].
  rewrite scan_step, IH. reflexivity.
Qed.

Lemma scan_stopped_mono (str : string) (k n : nat) st :
  scan str k = Stopped st -> (k <= n)%nat -> scan str n = Stopped st.
Proof.
  intros Hk Hle. induction Hle as [| n Hle IH]; [assumption |].
  rewrite scan_step, IH. reflexivity.
Qed.

Lemma shunting_yard_failed (str : string) (k : nat) e col tr :
  scan str k = Failed e col tr -> (k <= S (strlen str))%nat ->
  shunting_yard str = Err e col.
Proof.
  intros Hk Hle. unfold shunting_yard, shunting_yard_traced.
  rewrite (scan_failed_mono _ Hk Hle). reflexivity.
Qed.

Lemma body_failed (str : string) (i : nat) st e col tr :
  scan str i = Running st -> (i <= strlen str)%nat ->
  body str i st = Failed e col tr ->
  shunting_yard str = Err e col.
Proof.
  intros Hscan Hle Hbody.
  apply (@shunting_yard_failed str (S i) e col tr); [| lia].
  rewrite scan_step, Hscan. exact Hbody.
Qed.

(** *** Operand spans *)

(** [rtrim] drops a tail of white space and nothing else, and what it
    keeps does not end with white space. *)
Lemma rtrim_spec (s : string) :
  exists w,
    s = rtrim s ++ w
    /\ (forall c, In c (list_ascii_of_string w) -> isspace c = true)
    /\ (forall t c, rtrim s = t ++ String c EmptyString -> isspace c = false).
Proof.
  induction s as [| a s (w & Heq & Hw & Hlast)].
  - exists EmptyString. simpl. repeat split; [tauto |].
    intros [| ? ?] c; discriminate.
  - simpl. destruct (rtrim s) as [| b t'] eqn:Hr.
    + destruct (isspace a) eqn:Ha.
      * exists (String a w). simpl in *. subst w.
        repeat split; [intros c [<- | H]; auto |].
        intros [| ? ?] c; discriminate.
      * exists w. simpl in *. subst w. repeat split; [exact Hw |].
        intros [| x t0] c; simpl; intros H; inversion H; subst.
        -- exact Ha.
        -- destruct t0; discriminate.
    + exists w. simpl. rewrite Heq at 1. repeat split; [exact Hw |].
      intros [| x t0] c; simpl; [discriminate |].
      intros [= -> H]. now apply (Hlast t0).
Qed.

Lemma strchr_in (s : string) (c : ascii) :
  is_some (strchr s c) = true <-> In c (list_ascii_of_string s).
Proof.
  induction s as [| a s IH]; simpl.
  - split; [discriminate | tauto].
  - destruct (Ascii.eqb_spec a c) as [-> | Hne]; simpl.
    + split; [now left | reflexivity].
    + destruct (strchr s c); simpl in *.
      * split; [intros _; right; now apply IH | reflexivity].
      * split; [discriminate |].
        intros [H | H]; [contradiction | now apply IH].
Qed.

Lemma strchr_strrchr_count (s : string) (c : ascii) :
  let n := count_occ ascii_dec (list_ascii_of_string s) c in
  (strchr s c = None <-> n = 0%nat)
  /\ (strrchr s c = None <-> n = 0%nat)
  /\ (same_place (strchr s c) (strrchr s c) = true <-> (n <= 1)%nat).
Proof.
  induction s as [| a s IH]; simpl.
  - repeat split; auto.
  - destruct IH as (IH1 & IH2 & IH3).
    destruct (ascii_dec a c) as [-> | Hne].
    + rewrite Ascii.eqb_refl.
      destruct (strrchr s c) as [k |] eqn:Hr; simpl.
      * assert (count_occ ascii_dec (list_ascii_of_string s) c <> 0%nat)
          by (intros H; apply IH2 in H; discriminate).
        repeat split; try discriminate; lia.
      * assert (count_occ ascii_dec (list_ascii_of_string s) c = 0%nat)
          by (now apply IH2).
        repeat split; try discriminate; lia.
    + destruct (Ascii.eqb_spec a c) as [-> | _]; [contradiction |].
      destruct (strchr s c) as [j |], (strrchr s c) as [k |]; simpl in *;
        repeat split; intros H;
        try discriminate; try reflexivity; try tauto;
        try (now apply IH1); try (now apply IH2); try (now apply IH3);
        try (apply IH1 in H; discriminate);
        try (apply IH2 in H; discriminate).
Qed.

Lemma malformed_iff (text : string) :
  malformed text = true <->
  text = "."
  \/ In " "%char (list_ascii_of_string text)
  \/ (2 <= count_occ ascii_dec (list_ascii_of_string text) "."%char)%nat.
Proof.
  unfold malformed.
  rewrite !orb_true_iff, String.eqb_eq, strchr_in, negb_true_iff.
  destruct (strchr_strrchr_count text ".") as (_ & _ & H).
  destruct (same_place (strchr text ".") (strrchr text ".")).
  - assert (count_occ ascii_dec (list_ascii_of_string text) "."%char
            <= 1)%nat by (now apply H).
    split; [intros [[? | ?] | ?]; auto; discriminate |].
    intros [? | [? | ?]]; auto; lia.
  - assert (~ (count_occ ascii_dec (list_ascii_of_string text) "."%char
               <= 1)%nat) by (intros H'; apply H in H'; discriminate).
    split; [intros _; right; right; lia | auto].
Qed.

Lemma right_paren_loop_failed (i : nat) ops st e col tr :
  right_paren_loop i ops st = Failed e col tr -> e = ERROR_SYNTAX.
Proof.
  revert st. induction ops as [| item rest IH]; intros st; simpl.
  - discriminate.
  - destruct (Ascii.eqb (head (val item)) "("); [discriminate |].
    destruct (pop_and_apply item rest st) as [st' |].
    + apply IH.
    + intros [= <- _ _]. reflexivity.
Qed.

Lemma skip_not_failed (c : ascii) st e col tr :
  skip c st <> Failed e col tr.
Proof. unfold skip. destruct (Ascii.eqb c newline); discriminate. Qed.



(** *** Left parentheses are never applied *)

Lemma rank_loop_bound (op : string) :
  -1 <= rank_loop op op_order 0 (-1) <= 3.
Proof.
  unfold op_order. simpl.
  repeat match goal with
         | |- context [strpbrk ?a ?b] => destruct (strpbrk a b)
         end; lia.
Qed.

Lemma rank_loop_paren (op : string) :
  head op = "("%char -> rank_loop op op_order 0 (-1) = 3.
Proof.
  destruct op as [| c op]; simpl; [discriminate |].
  intros ->. simpl. reflexivity.
Qed.

Lemma compare_operators_paren (item : stack_item) (op2 : string) :
  is_paren item = true -> compare_operators (val item) op2 = false.
Proof.
  unfold is_paren, compare_operators. rewrite Ascii.eqb_eq. intros H.
  rewrite (rank_loop_paren _ H).
  pose proof (rank_loop_bound op2). apply Z.ltb_ge. lia.
Qed.

Lemma symbol_not_paren (item : stack_item) :
  symbol_ok item -> is_paren item = false.
Proof.
  unfold symbol_ok, is_paren. intros H.
  destruct (Ascii.eqb_spec (head (val item)) "(") as [E |]; [| reflexivity].
  rewrite E in H. discriminate.
Qed.

Lemma pop_and_apply_fields item rest st st' :
  pop_and_apply item rest st = Some st' ->
  token_pos st' = token_pos st /\ paren_depth st' = paren_depth st
  /\ paren_pos st' = paren_pos st /\ prev_chr st' = prev_chr st
  /\ operators st' = rest /\ trace st' = item :: trace st
  /\ apply_operator (head (val item)) (flags item) (operands st)
     = Some (operands st').
Proof.
  unfold pop_and_apply.
  destruct (apply_operator _ _ _); [| discriminate].
  intros [= <-]. simpl. repeat split.
Qed.

Lemma skip_inv (c : ascii) st : inv st -> outcome_inv (skip c st).
Proof. unfold skip. destruct (Ascii.eqb c newline); simpl; auto. Qed.

Lemma and_then_inv o k :
  outcome_inv o -> (forall st, inv st -> outcome_inv (k st)) ->
  outcome_inv (and_then o k).
Proof. destruct o; simpl; auto. Qed.

Lemma on_operator_inv (c : ascii) (i : nat) st :
  is_operator c = true -> inv st -> outcome_inv (on_operator c i st).
Proof.
  intros Hc (Hs & Hd & Ht). unfold on_operator.
  assert (Hpush : forall u st1,
             inv st1 ->
             inv (push_operator (mk_item (String c EmptyString) u) st1)).
  { intros u st1 (Hs1 & Hd1 & Ht1). unfold inv. simpl.
    assert (Hsym : symbol_ok (mk_item (String c EmptyString) u)) by exact Hc.
    rewrite (symbol_not_paren Hsym).
    repeat split; auto. constructor; auto. }
  destruct (operators st) as [| top rest] eqn:Hops.
  - apply Hpush. unfold inv. rewrite Hops. auto.
  - destruct (_ && _) eqn:Hcond.
    + apply andb_true_iff in Hcond. destruct Hcond as [_ Hcmp].
      inversion Hs as [| ? ? Htop Hrest]; subst.
      assert (Hnp : is_paren top = false).
      { destruct (is_paren top) eqn:E; [| reflexivity].
        rewrite (@compare_operators_paren top _ E) in Hcmp. discriminate. }
      assert (Hsym : symbol_ok top).
      { destruct Htop as [E | E]; [congruence | exact E]. }
      destruct (pop_and_apply top rest st) as [st' |] eqn:Hpa.
      * apply pop_and_apply_fields in Hpa.
        destruct Hpa as (_ & Hd' & _ & _ & Ho' & Ht' & _).
        apply Hpush. unfold inv. rewrite Ho', Hd', Ht', Hd.
        simpl. rewrite Hnp. repeat split; auto.
      * simpl. constructor; auto.
    + apply Hpush. unfold inv. rewrite Hops. auto.
Qed.

Lemma right_paren_loop_inv (i : nat) ops st :
  stack_ok ops -> paren_depth st = Z.of_nat (open_parens ops) ->
  Forall symbol_ok (trace st) ->
  outcome_inv (right_paren_loop i ops st).
Proof.
  revert st. induction ops as [| item rest IH]; intros st Hs Hd Ht; simpl.
  - simpl. unfold inv. simpl. repeat split; auto.
  - inversion Hs as [| ? ? Hitem Hrest]; subst.
    simpl in Hd. unfold is_paren in Hd, Hitem.
    destruct (Ascii.eqb (head (val item)) "(") eqn:E.
    + simpl. unfold inv. simpl.
      split; [exact Hrest | split; [lia | exact Ht]].
    + assert (Hsym : symbol_ok item)
        by (destruct Hitem as [? | ?]; [discriminate | assumption]).
      destruct (pop_and_apply item rest st) as [st' |] eqn:Hpa.
      * apply pop_and_apply_fields in Hpa.
        destruct Hpa as (_ & Hd' & _ & _ & _ & Ht' & _).
        apply IH; auto; [congruence |].
        rewrite Ht'. constructor; auto.
      * simpl. constructor; auto.
Qed.

Lemma dispatch_inv (c : ascii) (i : nat) st :
  inv st -> outcome_inv (dispatch c i st).
Proof.
  intros Hinv. unfold dispatch.
  destruct (is_operator c) eqn:Hc.
  - apply and_then_inv; [now apply on_operator_inv | apply skip_inv].
  - destruct (Ascii.eqb c "(").
    + apply skip_inv. destruct Hinv as (Hs & Hd & Ht).
      unfold inv, on_left_paren. simpl. repeat split; auto.
      * constructor; auto.
      * lia.
    + destruct (Ascii.eqb c ")").
      * apply and_then_inv; [| apply skip_inv].
        unfold on_right_paren. destruct Hinv as (Hs & Hd & Ht).
        destruct (paren_depth st =? 0); simpl; auto.
        now apply right_paren_loop_inv.
      * destruct (_ && _); [apply Hinv | now apply skip_inv].
Qed.

Lemma body_inv (str : string) (i : nat) st :
  inv st -> outcome_inv (body str i st).
Proof.
  intros Hinv. unfold body.
  destruct (Ascii.eqb (char_at str i) " "); [exact Hinv |].
  destruct (is_operand (char_at str i)).
  - apply skip_inv. destruct (token_pos st =? -1); exact Hinv.
  - destruct (negb (token_pos st =? -1)); [| now apply dispatch_inv].
    apply and_then_inv; [| intros; now apply dispatch_inv].
    unfold end_of_operand. destruct (malformed _); simpl; apply Hinv.
Qed.

Lemma scan_inv (str : string) (n : nat) : outcome_inv (scan str n).
Proof.
  induction n as [| n IH].
  - simpl. unfold inv. simpl. repeat split; constructor.
  - rewrite scan_step. apply and_then_inv; [exact IH |].
    intros st. apply body_inv.
Qed.

Lemma drain_trace ops operands tr :
  stack_ok ops -> open_parens ops = 0%nat -> Forall symbol_ok tr ->
  Forall symbol_ok (snd (drain ops operands tr)).
Proof.
  revert operands tr.
  induction ops as [| item rest IH]; intros operands tr Hs Hn Ht; simpl.
  - exact Ht.
  - inversion Hs as [| ? ? Hitem Hrest]; subst. simpl in Hn.
    destruct (is_paren item) eqn:E; [discriminate |].
    assert (Hsym : symbol_ok item)
      by (destruct Hitem as [? | ?]; [discriminate | assumption]).
    destruct (apply_operator _ _ _).
    + apply IH; auto.
    + simpl. constructor; auto.
Qed.

Lemma finish_trace st : inv st -> Forall symbol_ok (snd (finish st)).
Proof.
  intros (Hs & Hd & Ht). unfold finish.
  destruct (Z.eqb_spec (paren_depth st) 0) as [Hz |]; simpl; [| exact Ht].
  assert (Hn : open_parens (operators st) = 0%nat) by lia.
  pose proof (drain_trace (operands st) Hs Hn Ht) as H.
  destruct (drain _ _ _) as [[[| top rest] |] tr]; exact H.
Qed.

(** C9. Whatever the input, every item [shunting_yard] hands to
    [apply_operator] carries one of [+ - * / ^ !], and none carries the
    left parenthesis: a pushed [(] leaves the operator stack only in the
    loop of its right parenthesis. *)
Theorem left_paren_never_applied (str : string) :
  Forall (fun item =>
            head (val item) <> "("%char
            /\ is_operator (head (val item)) = true)
         (applied str).
Proof.
  unfold applied. apply Forall_rev.
  assert (H : Forall symbol_ok (snd (shunting_yard_traced str))).
  { unfold shunting_yard_traced.
    pose proof (scan_inv str (S (strlen str))) as Hinv.
    destruct (scan str (S (strlen str))); simpl in Hinv;
      [now apply finish_trace | now apply finish_trace | exact Hinv]. }
  eapply Forall_impl; [| exact H].
  intros item Hsym. split; [| exact Hsym].
  apply symbol_not_paren in Hsym. unfold is_paren in Hsym.
  now apply Ascii.eqb_neq.
Qed.

(** *** Parentheses *)

Lemma char_at_lt (str : string) (i : nat) :
  char_at str i <> NUL -> (i < strlen str)%nat.
Proof.
  unfold char_at. intros H.
  destruct (String.get i str); [| contradiction].
  destruct (Nat.ltb_spec i (strlen str)); [assumption | contradiction].
Qed.

Lemma alive_step (str : string) (n : nat) st :
  alive str (S n) st ->
  scan str n = Stopped st
  \/ exists st0, scan str n = Running st0
                 /\ (body str n st0 = Running st \/ body str n st0 = Stopped st).
Proof.
  unfold alive. rewrite scan_step.
  destruct (scan str n) as [st0 | st0 | e col tr]; simpl.
  - intros H. right. exists st0. split; [reflexivity | exact H].
  - intros [H | H]; [discriminate | now left].
  - intros [H | H]; discriminate.
Qed.

Lemma skip_parens (c : ascii) st st' :
  skip c st = Running st' \/ skip c st = Stopped st' ->
  paren_depth st' = paren_depth st /\ paren_pos st' = paren_pos st.
Proof.
  unfold skip. destruct (Ascii.eqb c newline);
    intros [H | H]; inversion H; subst; simpl; auto.
Qed.

Lemma right_paren_loop_parens (i : nat) ops st st' :
  right_paren_loop i ops st = Running st' ->
  paren_pos st' = paren_pos st
  /\ (paren_depth st' = paren_depth st
      \/ paren_depth st' = paren_depth st - 1).
Proof.
  revert st. induction ops as [| item rest IH]; intros st; simpl.
  - intros [= <-]. simpl. auto.
  - destruct (Ascii.eqb (head (val item)) "(").
    + intros [= <-]. simpl. auto.
    + destruct (pop_and_apply item rest st) as [st1 |] eqn:Hpa;
        [| discriminate].
      apply pop_and_apply_fields in Hpa.
      destruct Hpa as (_ & Hd & Hp & _).
      intros H. apply IH in H. rewrite Hd, Hp in H. exact H.
Qed.

Lemma right_paren_loop_not_stopped (i : nat) ops st st' :
  right_paren_loop i ops st <> Stopped st'.
Proof.
  revert st. induction ops as [| item rest IH]; intros st; simpl.
  - discriminate.
  - destruct (Ascii.eqb (head (val item)) "("); [discriminate |].
    destruct (pop_and_apply item rest st); [apply IH | discriminate].
Qed.

Lemma on_operator_parens (c : ascii) (i : nat) st st' :
  on_operator c i st = Running st' ->
  paren_depth st' = paren_depth st /\ paren_pos st' = paren_pos st.
Proof.
  unfold on_operator.
  destruct (operators st) as [| top rest].
  - intros [= <-]. simpl. auto.
  - destruct (_ && _).
    + destruct (pop_and_apply top rest st) as [st1 |] eqn:Hpa;
        [| discriminate].
      apply pop_and_apply_fields in Hpa.
      destruct Hpa as (_ & Hd & Hp & _).
      intros [= <-]. simpl. auto.
    + intros [= <-]. simpl. auto.
Qed.

Lemma on_operator_not_stopped (c : ascii) (i : nat) st st' :
  on_operator c i st <> Stopped st'.
Proof.
  unfold on_operator.
  destruct (operators st) as [| top rest]; [discriminate |].
  destruct (_ && _); [| discriminate].
  destruct (pop_and_apply top rest st); discriminate.
Qed.

Lemma dispatch_parens (c : ascii) (i : nat) st st' :
  dispatch c i st = Running st' \/ dispatch c i st = Stopped st' ->
  paren_effect c i st st'.
Proof.
  unfold dispatch, paren_effect.
  destruct (is_operator c).
  - destruct (on_operator c i st) as [st1 | st1 | e col tr] eqn:Hop; simpl.
    + intros H. apply skip_parens in H. apply on_operator_parens in Hop.
      left. destruct H, Hop. split; congruence.
    + now apply on_operator_not_stopped in Hop.
    + intros [H | H]; discriminate.
  - destruct (Ascii.eqb_spec c "(") as [-> | _].
    + intros H. apply skip_parens in H. simpl in H.
      right. left. destruct H. auto.
    + destruct (Ascii.eqb_spec c ")") as [-> | _].
      * unfold on_right_paren.
        destruct (paren_depth st =? 0); simpl;
          [intros [H | H]; discriminate |].
        destruct (right_paren_loop i (operators st) st)
          as [st1 | st1 | e col tr] eqn:Hl; simpl.
        -- intros H. apply skip_parens in H.
           apply right_paren_loop_parens in Hl.
           destruct H as [Hd Hp], Hl as [Hp1 [Hd1 | Hd1]].
           ++ left. split; congruence.
           ++ right. right. repeat split; congruence.
        -- now apply right_paren_loop_not_stopped in Hl.
        -- intros [H | H]; discriminate.
      * destruct (_ && _); [intros [H | H]; discriminate |].
        intros H. apply skip_parens in H. now left.
Qed.

Lemma body_parens (str : string) (i : nat) st st' :
  body str i st = Running st' \/ body str i st = Stopped st' ->
  paren_effect (char_at str i) i st st'.
Proof.
  unfold body.
  destruct (Ascii.eqb (char_at str i) " ").
  - intros [H | H]; inversion H; subst. left. auto.
  - destruct (is_operand (char_at str i)).
    + intros H. apply skip_parens in H. left.
      destruct (token_pos st =? -1); exact H.
    + destruct (negb (token_pos st =? -1)); [| apply dispatch_parens].
      unfold end_of_operand. destruct (malformed _); simpl.
      * intros [H | H]; discriminate.
      * intros H. apply dispatch_parens in H. exact H.
Qed.

Lemma alive_fun (str : string) (n : nat) st st' :
  alive str n st -> alive str n st' -> st = st'.
Proof. unfold alive. intros [H | H] [H' | H']; congruence. Qed.

(** While the depth is positive, [paren_pos] is the index of the [(] read
    at depth zero since which the depth stayed positive. *)
Lemma unclosed_paren_pos (str : string) (n : nat) st :
  alive str n st -> 0 < paren_depth st ->
  exists j st_j,
    (j < n)%nat /\ paren_pos st = Z.of_nat j
    /\ char_at str j = "("%char
    /\ scan str j = Running st_j /\ paren_depth st_j = 0
    /\ forall k st_k, (j < k <= n)%nat -> alive str k st_k ->
                      0 < paren_depth st_k.
Proof.
  revert st. induction n as [| n IH]; intros st Hal Hpos.
  - destruct Hal as [H | H]; simpl in H; inversion H; subst.
    simpl in Hpos. lia.
  - assert (Hext : forall st0 : state,
               alive str n st0 -> 0 < paren_depth st0 ->
               paren_pos st = paren_pos st0 ->
               exists j st_j,
                 (j < S n)%nat /\ paren_pos st = Z.of_nat j
                 /\ char_at str j = "("%char
                 /\ scan str j = Running st_j /\ paren_depth st_j = 0
                 /\ forall k st_k, (j < k <= S n)%nat -> alive str k st_k ->
                                   0 < paren_depth st_k).
    { intros st0 Hal0 Hpos0 Hpp.
      destruct (IH st0 Hal0 Hpos0) as (j & st_j & Hj & Hp & Hc & Hs & Hd & Hk).
      exists j, st_j.
      split; [lia |]. split; [congruence |].
      split; [exact Hc |]. split; [exact Hs |]. split; [exact Hd |].
      intros k st_k Hjk Halk.
      destruct (Nat.eq_dec k (S n)) as [-> | Hne].
      - now rewrite (alive_fun Halk Hal).
      - apply (Hk k st_k); [lia | exact Halk]. }
    destruct (alive_step Hal) as [Hst | (st0 & Hrun & Hbody)].
    + apply (Hext st); auto. now right.
    + apply body_parens in Hbody.
      destruct Hbody as [[Hd Hp] | [(Hc & Hd & Hp) | (Hc & Hd & Hp)]].
      * apply (Hext st0); [now left | lia | exact Hp].
      * destruct (Z.eqb_spec (paren_depth st0 + 1) 1) as [E | E].
        -- exists n, st0.
           split; [lia |]. split; [exact Hp |].
           split; [congruence |]. split; [exact Hrun |]. split; [lia |].
           intros k st_k Hjk Halk.
           assert (k = S n) by lia. subst k.
           now rewrite (alive_fun Halk Hal).
        -- apply (Hext st0); [now left | lia | exact Hp].
      * apply (Hext st0); [now left | lia | exact Hp].
Qed.

Lemma alive_depth_nonneg (str : string) (n : nat) st :
  alive str n st -> 0 <= paren_depth st.
Proof.
  intros Hal. pose proof (scan_inv str n) as Hinv.
  destruct Hal as [H | H]; rewrite H in Hinv;
    destruct Hinv as (_ & Hd & _); lia.
Qed.

Lemma shunting_yard_alive (str : string) st :
  alive str (S (strlen str)) st -> shunting_yard str = fst (finish st).
Proof.
  unfold shunting_yard, shunting_yard_traced.
  intros [H | H]; rewrite H; reflexivity.
Qed.

(** C6, as the program has it. A [)] read at depth zero, once the operand
    that ends there (if any) has passed the syntax check, fails with
    [ERROR_RIGHT_PAREN] at its column. If the loop ends with a depth that
    is not zero, the evaluation fails with [ERROR_LEFT_PAREN] at
    [paren_pos], the column of the [(] that was read at depth zero and
    since which the depth stayed positive: the opening parenthesis of the
    outermost group still open. *)
Theorem paren_errors (str : string) :
  (forall i st,
      scan str i = Running st ->
      char_at str i = ")"%char ->
      paren_depth st = 0 ->
      token_pos st = -1 \/ malformed (span_text str i st) = false ->
      shunting_yard str = Err ERROR_RIGHT_PAREN (Col (Z.of_nat i)))
  /\ (forall st,
         alive str (S (strlen str)) st ->
         paren_depth st <> 0 ->
         shunting_yard str = Err ERROR_LEFT_PAREN (Col (paren_pos st))
         /\ exists j st_j,
             paren_pos st = Z.of_nat j
             /\ char_at str j = "("%char
             /\ scan str j = Running st_j
             /\ paren_depth st_j = 0
             /\ forall k st_k,
                 (j < k <= S (strlen str))%nat -> alive str k st_k ->
                 0 < paren_depth st_k).
Proof.
  split.
  - intros i st Hscan Hc Hd Hspan.
    assert (Hlt : (i < strlen str)%nat)
      by (apply char_at_lt; rewrite Hc; discriminate).
    assert (Hdis : forall st1, paren_depth st1 = 0 ->
                               exists tr, dispatch ")" i st1
                                          = Failed ERROR_RIGHT_PAREN
                                                   (Col (Z.of_nat i)) tr).
    { intros st1 Hd1. unfold dispatch, on_right_paren. simpl.
      rewrite Hd1. simpl. eauto. }
    assert (Hbody : exists tr, body str i st
                               = Failed ERROR_RIGHT_PAREN
                                        (Col (Z.of_nat i)) tr).
    { unfold body. rewrite Hc. simpl.
      destruct (Z.eqb_spec (token_pos st) (-1)) as [E | E]; simpl.
      - now apply Hdis.
      - destruct Hspan as [? | Hok]; [contradiction |].
        unfold end_of_operand. rewrite Hok. simpl. now apply Hdis. }
    destruct Hbody as [tr Hbody].
    eapply body_failed; [exact Hscan | lia | exact Hbody].
  - intros st Hal Hd. split.
    + rewrite (shunting_yard_alive Hal). unfold finish.
      destruct (Z.eqb_spec (paren_depth st) 0); [contradiction |].
      reflexivity.
    + pose proof (alive_depth_nonneg Hal) as Hnn.
      destruct (@unclosed_paren_pos str (S (strlen str)) st Hal)
        as (j & st_j & _ & Hp & Hc & Hs & Hd0 & Hk); [lia |].
      exists j, st_j. auto.
Qed.

(** *** The end of the input *)

Lemma strlen_blank (n : nat) : strlen (blank n) = n.
Proof. induction n as [| n IH]; simpl; [reflexivity | now rewrite IH]. Qed.

Lemma get_blank (n k : nat) :
  String.get k (blank n) = if (k <? n)%nat then Some " "%char else None.
Proof.
  revert k. induction n as [| n IH]; intros k; simpl.
  - now destruct k.
  - destruct k as [| k]; [reflexivity |]. rewrite IH. reflexivity.
Qed.

Lemma char_at_blank (n k : nat) :
  char_at (blank n) k = if (k <? n)%nat then " "%char else NUL.
Proof.
  unfold char_at. rewrite get_blank, strlen_blank.
  destruct (k <? n)%nat; reflexivity.
Qed.

Lemma scan_blank (n k : nat) :
  (k <= S n)%nat -> scan (blank n) k = Running initial.
Proof.
  induction k as [| k IH]; intros Hk; [reflexivity |].
  rewrite scan_step, IH by lia. simpl. unfold body.
  rewrite char_at_blank.
  destruct (Nat.ltb_spec k n); [reflexivity |]. reflexivity.
Qed.

(** C7, as the program has it. Once the operators are drained: with no
    operand left the evaluation fails with [ERROR_NO_INPUT] and no column,
    as it does on the empty input and on any input of spaces; with
    operands left the result is the value of the top one, whether or not
    others lie below it. *)
Theorem final_result (str : string) :
  (forall st operands' tr,
      alive str (S (strlen str)) st ->
      paren_depth st = 0 ->
      drain (operators st) (operands st) (trace st) = (Some operands', tr) ->
      match operands' with
      | [] => shunting_yard str = Err ERROR_NO_INPUT NO_COL_NUM
      | top :: _ => shunting_yard str = Ok (strtod_unalloc top)
      end)
  /\ (forall n, shunting_yard (blank n) = Err ERROR_NO_INPUT NO_COL_NUM).
Proof.
  split.
  - intros st operands' tr Hal Hd Hdrain.
    rewrite (shunting_yard_alive Hal). unfold finish.
    rewrite Hd, Hdrain. simpl. destruct operands'; reflexivity.
  - intros n. unfold shunting_yard, shunting_yard_traced.
    rewrite strlen_blank, scan_blank by lia. reflexivity.
Qed.

(** C8. When an operator popped by the loop at the end of the input
    cannot be applied, the evaluation fails with [ERROR_SYNTAX_STACK] and
    no column; ["2+"], whose [+] finds a single operand, is such an
    input. *)
Theorem drain_failure (str : string) :
  (forall st tr,
      alive str (S (strlen str)) st ->
      paren_depth st = 0 ->
      drain (operators st) (operands st) (trace st) = (None, tr) ->
      shunting_yard str = Err ERROR_SYNTAX_STACK NO_COL_NUM)
  /\ (exists st,
         alive "2+" (S (strlen "2+")) st
         /\ paren_depth st = 0
         /\ operators st = [mk_item "+" false]
         /\ operands st = ["2"]
         /\ apply_operator "+" false (operands st) = None
         /\ shunting_yard "2+" = Err ERROR_SYNTAX_STACK NO_COL_NUM).
Proof.
  split.
  - intros st tr Hal Hd Hdrain.
    rewrite (shunting_yard_alive Hal). unfold finish.
    rewrite Hd, Hdrain. reflexivity.
  - eexists. split; [left; reflexivity |].
    simpl. repeat split; reflexivity.
Qed.

(** *** Precedence resolution *)

Lemma rank_loop_precedence (c : ascii) :
  rank_loop (String c EmptyString) op_order 0 (-1) = precedence c.
Proof.
  destruct c as [[] [] [] [] [] [] [] []]; vm_compute; reflexivity.
Qed.

Lemma compare_operators_precedence (a b : ascii) :
  compare_operators (String a EmptyString) (String b EmptyString)
  = (precedence a <? precedence b).
Proof.
  unfold compare_operators. now rewrite !rank_loop_precedence.
Qed.

(** What the operator branch computes. When the operator [c] is read,
    with [u] its unary flag, the branch tests the top entry once (an [if],
    where popping every entry of the same or a higher precedence takes a
    loop) and with a strict comparison of ranks (where the operators of
    one class need the non-strict one): at most one stacked operator is
    applied before [c] is pushed, the top entry, when [c] is not unary or
    the top entry is unary, and its class comes strictly before that of
    [c] in [op_order]; the entries below are not looked at. A top entry of
    the class of [c] stays, so that the drain applies the operators of one
    class from the right: ["2^3^2"] comes out as [pow(2, pow(3, 2))] and
    ["8-4-2"] as [8 - (4 - 2)]. *)
Theorem operator_resolution (c : ascii) (i : nat) (st : state) :
  let u := is_unary c (prev_chr st) in
  let pushed := mk_item (String c EmptyString) u in
  (forall a b,
      compare_operators (String a EmptyString) (String b EmptyString)
      = (precedence a <? precedence b))
  /\ (forall st',
         on_operator c i st = Running st' ->
         st' = push_operator pushed st
         \/ exists top rest st1,
             operators st = top :: rest
             /\ (u = false \/ flags top = true)
             /\ compare_operators (val top) (String c EmptyString) = true
             /\ pop_and_apply top rest st = Some st1
             /\ st' = push_operator pushed st1)
  /\ (forall a f rest,
         operators st = mk_item (String a EmptyString) f :: rest ->
         precedence c <= precedence a ->
         on_operator c i st = Running (push_operator pushed st))
  /\ (forall a f rest,
         operators st = mk_item (String a EmptyString) f :: rest ->
         precedence a < precedence c ->
         u = false \/ f = true ->
         on_operator c i st
         = match pop_and_apply (mk_item (String a EmptyString) f) rest st with
           | Some st1 => Running (push_operator pushed st1)
           | None =>
               Failed ERROR_SYNTAX (Col (Z.of_nat i))
                      (mk_item (String a EmptyString) f :: trace st)
           end)
  /\ shunting_yard "2^3^2"
     = Ok (strtod
             (num_to_str
                (pow (strtod "2")
                     (strtod (num_to_str (pow (strtod "3") (strtod "2")))))))
  /\ shunting_yard "8-4-2"
     = Ok (strtod
             (num_to_str
                (strtod "8"
                 - strtod (num_to_str (strtod "4" - strtod "2")))%float)).
Proof.
  intros u pushed.
  split; [exact compare_operators_precedence |].
  split; [| split; [| split; [| split]]].
  - intros st' H. unfold on_operator in H. fold u in H. fold pushed in H.
    destruct (operators st) as [| top rest].
    + left. now inversion H.
    + destruct (_ && _) eqn:Hcond.
      * destruct (pop_and_apply top rest st) as [st1 |] eqn:Hpa;
          [| discriminate].
        right. exists top, rest, st1.
        apply andb_true_iff in Hcond. destruct Hcond as [Htie Hcmp].
        repeat split; auto; [| now inversion H].
        destruct u; [right | now left].
        simpl in Htie. now rewrite orb_false_r in Htie.
      * left. now inversion H.
  - intros a f rest Hops Hle. unfold on_operator. rewrite Hops. simpl.
    rewrite compare_operators_precedence.
    destruct (Z.ltb_spec (precedence a) (precedence c)); [lia |].
    rewrite andb_false_r. reflexivity.
  - intros a f rest Hops Hlt Htie. unfold on_operator. rewrite Hops. simpl.
    rewrite compare_operators_precedence.
    destruct (Z.ltb_spec (precedence a) (precedence c)); [| lia].
    fold u. rewrite andb_true_r.
    assert (Hb : (u && f || negb u) = true)
      by (destruct Htie as [-> | ->]; [reflexivity | now destruct u]).
    rewrite Hb. reflexivity.
  - vm_compute. reflexivity.
  - vm_compute. reflexivity.
Qed.

(** *** Unary chains *)

(** C4. With a libc whose [strtod] reads back the numbers [num_to_str]
    prints and reads ["5"] as 5 and ["3"] as 3, ["--5"] evaluates to 5
    and ["-3!"] to [-(tgamma(3+1))], the minus being applied after the
    factorial; that is -6 as soon as [tgamma(4)] is 6. *)
Theorem unary_chains :
  (forall d, strtod (num_to_str d) = d) ->
  strtod "5" = 5%float ->
  strtod "3" = 3%float ->
  shunting_yard "--5" = Ok 5%float
  /\ shunting_yard "-3!" = Ok (- tgamma (3 + 1))%float
  /\ (tgamma 4 = 6%float -> shunting_yard "-3!" = Ok (-6)%float)
  /\ applied "-3!" = [mk_item "!" true; mk_item "-" true].
Proof.
  intros Hrt H5 H3.
  assert (E5 : shunting_yard "--5"
               = Ok (strtod
                       (num_to_str
                          (- strtod (num_to_str (- strtod "5")))%float)))
    by (vm_compute; reflexivity).
  assert (E3 : shunting_yard "-3!"
               = Ok (strtod
                       (num_to_str
                          (- strtod
                               (num_to_str (tgamma (strtod "3" + 1))))%float)))
    by (vm_compute; reflexivity).
  rewrite E5, E3, !Hrt, H5, H3.
  split; [reflexivity |]. split; [reflexivity |].
  split; [| vm_compute; reflexivity].
  intros H4. change (3 + 1)%float with 4%float. rewrite H4. reflexivity.
Qed.

End Properties.

(** ** The reference libc reads back what it prints *)

Module RefFacts.

Lemma split_at_hex (d : Hexadecimal.uint) (r : string) :
  Ref.split_at "p" (HexadecimalString.NilEmpty.string_of_uint d
                    ++ String "p" r)
  = Some (HexadecimalString.NilEmpty.string_of_uint d, r).
Proof.
  induction d; simpl; try rewrite IHd; reflexivity.
Qed.

Lemma read_exp_text (e : Z) : Ref.read_exp (Ref.exp_text e) = Some e.
Proof.
  unfold Ref.read_exp, Ref.exp_text.
  assert (H : option_map Z.of_int
                (DecimalString.NilEmpty.int_of_string
                   (DecimalString.NilEmpty.string_of_int (Z.to_int e)))
              = Some e).
  { rewrite DecimalString.NilEmpty.isi. simpl.
    now rewrite DecimalZ.of_to. }
  destruct e as [| p | p]; simpl in *; exact H.
Qed.

Lemma read_hex_text (s : bool) (m : positive) (e : Z) :
  Ref.read_hex s (Ref.hex_text m ++ "p" ++ Ref.exp_text e)
  = Some (S754_finite s m e).
Proof.
  unfold Ref.read_hex, Ref.hex_text.
  change ("p" ++ Ref.exp_text e) with (String "p" (Ref.exp_text e)).
  rewrite split_at_hex, HexadecimalString.NilEmpty.usu, read_exp_text.
  now rewrite HexadecimalPos.Unsigned.of_to.
Qed.

Lemma read_print_sf (x : spec_float) : Ref.read_sf (Ref.print_sf x) = Some x.
Proof.
  destruct x as [s | s | | s m e].
  - destruct s; reflexivity.
  - destruct s; reflexivity.
  - reflexivity.
  - pose proof (read_hex_text s m e) as H.
    destruct s; simpl; exact H.
Qed.

(** On the reference libc, [strtod] returns the very number that
    [snprintf_a] printed. *)
Lemma strtod_snprintf_a (n : Z) (d : float) :
  Ref.strtod (Ref.snprintf_a n d) = d.
Proof.
  unfold Ref.strtod, Ref.snprintf_a.
  rewrite read_print_sf. apply SF2Prim_Prim2SF.
Qed.

End RefFacts.

(** ** The libc of the C standard reads back what it prints *)

Module C99Facts.

Import C99.

Lemma hex_value_digit (d : Z) :
  0 <= d < 16 -> hex_value (hex_digit d) = Some d.
Proof.
  intros H.
  assert (E : d = 0 \/ d = 1 \/ d = 2 \/ d = 3 \/ d = 4 \/ d = 5 \/ d = 6
              \/ d = 7 \/ d = 8 \/ d = 9 \/ d = 10 \/ d = 11 \/ d = 12
              \/ d = 13 \/ d = 14 \/ d = 15) by lia.
  repeat (destruct E as [-> | E]; [reflexivity |]). subst. reflexivity.
Qed.

Lemma hex_digits_range (n : nat) (x : Z) :
  Forall (fun d => 0 <= d < 16) (hex_digits n x).
Proof.
  revert x. induction n as [| n IH]; intros x; simpl; [constructor |].
  apply Forall_app. split; [apply IH |].
  constructor; [| constructor]. apply Z.mod_pos_bound. lia.
Qed.

Lemma hex_number_snoc (ds : list Z) (d : Z) :
  hex_number (ds ++ [d])%list = 16 * hex_number ds + d.
Proof. unfold hex_number. now rewrite fold_left_app. Qed.

Lemma hex_number_digits (n : nat) (x : Z) :
  hex_number (hex_digits n x) = x mod 16 ^ Z.of_nat n.
Proof.
  revert x. induction n as [| n IH]; intros x.
  - simpl. now rewrite Z.mod_1_r.
  - simpl hex_digits. rewrite hex_number_snoc, IH.
    rewrite Nat2Z.inj_succ, Z.pow_succ_r by lia.
    rewrite Z.rem_mul_r by lia. lia.
Qed.

Lemma strip_zeros (ds : list Z) :
  exists j, ds = (strip ds ++ repeat 0 j)%list.
Proof.
  induction ds as [| d r IH]; [now exists 0%nat |].
  destruct IH as [j Hj]. simpl.
  destruct (strip r) as [| d' r'] eqn:Hs.
  - destruct (Z.eqb_spec d 0) as [-> | Hd].
    + exists (S j). simpl in *. now rewrite <- Hj.
    + exists j. simpl in *. now rewrite <- Hj.
  - exists j. simpl in *. now rewrite <- Hj.
Qed.

Lemma strip_range (ds : list Z) :
  Forall (fun d => 0 <= d < 16) ds ->
  Forall (fun d => 0 <= d < 16) (strip ds).
Proof.
  intros H. destruct (strip_zeros ds) as [j Hj].
  rewrite Hj in H. now apply Forall_app in H.
Qed.

Lemma hex_number_app_zeros (ds : list Z) (j : nat) :
  hex_number (ds ++ repeat 0 j)%list = hex_number ds * 16 ^ Z.of_nat j.
Proof.
  induction j as [| j IH]; [simpl; rewrite app_nil_r; lia |].
  replace (repeat 0 (S j)) with (repeat 0 j ++ [0])%list
    by (now rewrite <- repeat_cons).
  rewrite app_assoc, hex_number_snoc, IH.
  rewrite Nat2Z.inj_succ, Z.pow_succ_r by lia. lia.
Qed.

Lemma span_hex_text (ds : list Z) (rest : string) :
  Forall (fun d => 0 <= d < 16) ds ->
  match rest with
  | EmptyString => True
  | String c _ => hex_value c = None
  end ->
  span_hex (digits_text ds ++ rest) = (ds, rest).
Proof.
  intros Hds Hrest. induction Hds as [| d r Hd _ IH]; simpl.
  - destruct rest as [| c rest]; [reflexivity |]. simpl. now rewrite Hrest.
  - rewrite (hex_value_digit Hd), IH. reflexivity.
Qed.

Lemma take_digits_uint (u : Decimal.uint) :
  take_digits (DecimalString.NilEmpty.string_of_uint u)
  = DecimalString.NilEmpty.string_of_uint u.
Proof. induction u; simpl; try rewrite IHu; reflexivity. Qed.

Lemma read_exponent_text (e : Z) : read_exponent (exponent_text e) = e.
Proof.
  assert (H : dec_number
                (DecimalString.NilEmpty.string_of_uint
                   (N.to_uint (Z.to_N (Z.abs e))))
              = Z.abs e).
  { unfold dec_number.
    rewrite take_digits_uint, DecimalString.NilEmpty.usu.
    rewrite DecimalN.Unsigned.of_to. lia. }
  unfold exponent_text.
  destruct (Z.ltb_spec e 0); simpl; rewrite H; lia.
Qed.

(** *** Rounding a number of the format *)

Lemma digits2_pos_bound (m : positive) :
  Z.pos m < 2 ^ Z.pos (digits2_pos m).
Proof.
  induction m as [m IH | m IH |]; simpl digits2_pos;
    rewrite ?Pos2Z.inj_succ, ?Z.pow_succ_r by lia; lia.
Qed.

Lemma digits2_pos_iter (m d : positive) :
  digits2_pos (Pos.iter xO m d) = (digits2_pos m + d)%positive.
Proof.
  induction d as [| d IH] using Pos.peano_ind.
  - simpl. lia.
  - rewrite Pos.iter_succ. simpl. rewrite IH. lia.
Qed.

Lemma iter_xO_spec (m d : positive) :
  Z.pos (Pos.iter xO m d) = Z.pos m * 2 ^ Z.pos d.
Proof.
  induction d as [| d IH] using Pos.peano_ind.
  - simpl. lia.
  - rewrite Pos.iter_succ, Pos2Z.inj_succ, Z.pow_succ_r by lia.
    rewrite Pos2Z.inj_xO, IH. lia.
Qed.

Lemma bounded_facts (m : positive) (e : Z) :
  bounded prec emax m e = true ->
  Z.pos m < 2 ^ 53 /\ -1074 <= e <= 971.
Proof.
  unfold bounded, canonical_mantissa, fexp, emin, prec, emax.
  intros H. apply andb_true_iff in H. destruct H as [Hc He].
  apply Z.eqb_eq in Hc. apply Z.leb_le in He.
  split; [| lia].
  pose proof (digits2_pos_bound m) as Hb.
  assert (Hd : Z.pos (digits2_pos m) <= 53) by lia.
  eapply Z.lt_le_trans; [exact Hb |].
  apply Z.pow_le_mono_r; lia.
Qed.

(** The rounding of [binary_normalize] returns a number of the format,
    however its mantissa is shifted. *)
Lemma binary_round_exact (s : bool) (m m0 : positive) (e k : Z) :
  bounded prec emax m e = true ->
  0 <= k -> Z.pos m = Z.pos m0 * 2 ^ k ->
  binary_round prec emax s m0 (e + k) = S754_finite s m e.
Proof.
  intros Hb Hk Hm.
  assert (Hb' := Hb). unfold bounded in Hb'.
  apply andb_true_iff in Hb'. destruct Hb' as [Hc He].
  unfold canonical_mantissa in Hc. apply Z.eqb_eq in Hc.
  assert (Haux : binary_round_aux prec emax s (Z.pos m) e loc_Exact
                 = S754_finite s m e).
  { unfold binary_round_aux, shr_fexp. simpl Zdigits2.
    rewrite Hc, Z.sub_diag.
    cbn [shr shr_record_of_loc shr_m shr_r shr_s loc_of_shr_record
         round_nearest_even Zdigits2].
    rewrite Hc, Z.sub_diag.
    cbn [shr shr_record_of_loc shr_m].
    now rewrite He. }
  unfold binary_round.
  destruct k as [| d | d]; [| | lia].
  - rewrite Z.add_0_r. assert (m = m0) by lia. subst m0.
    unfold shl_align. rewrite Hc, Z.sub_diag. exact Haux.
  - assert (Hi : Pos.iter xO m0 d = m).
    { apply Pos2Z.inj. rewrite iter_xO_spec. lia. }
    assert (Hd : Z.pos (digits2_pos m) = Z.pos (digits2_pos m0) + Z.pos d).
    { rewrite <- Hi, digits2_pos_iter. lia. }
    replace (Z.pos (digits2_pos m0) + (e + Z.pos d))
      with (Z.pos (digits2_pos m) + e) by lia.
    rewrite Hc. unfold shl_align.
    replace (e - (e + Z.pos d)) with (Z.neg d) by lia.
    rewrite Hi. exact Haux.
Qed.

Lemma span_hex_p (r : string) :
  span_hex (String "p" r) = ([], String "p" r).
Proof. reflexivity. Qed.

Lemma span_hex_dot (r : string) :
  span_hex (String "." r) = ([], String "." r).
Proof. reflexivity. Qed.

Lemma hex_number_cons (d : Z) (ds : list Z) :
  hex_number (d :: ds)
  = d * 16 ^ Z.of_nat (List.length ds) + hex_number ds.
Proof.
  induction ds as [| d' ds IH] using rev_ind;
    [unfold hex_number; simpl; lia |].
  rewrite app_comm_cons, !hex_number_snoc, IH.
  rewrite length_app. simpl List.length.
  rewrite Nat.add_1_r, Nat2Z.inj_succ, Z.pow_succ_r by lia. lia.
Qed.

Lemma length_hex_digits (n : nat) (x : Z) :
  List.length (hex_digits n x) = n.
Proof.
  revert x. induction n as [| n IH]; intros x; simpl; [reflexivity |].
  rewrite length_app, IH. simpl. lia.
Qed.

(** [strtod] reads a finite number back from the text ["%a"] gives it. *)
Lemma read_hex_float_print (s : bool) (m : positive) (e : Z) :
  bounded prec emax m e = true ->
  let fraction := strip (hex_digits 13 (Z.pos m mod 2 ^ 52)) in
  read_hex_float s
    (String (hex_digit (Z.pos m / 2 ^ 52))
       ((match fraction with
         | [] => ""
         | _ => String "." (digits_text fraction)
         end)
        ++ String "p" (exponent_text (e + 52))))
  = S754_finite s m e.
Proof.
  intros Hb fraction.
  destruct (bounded_facts _ _ Hb) as [Hm He].
  set (lead := Z.pos m / 2 ^ 52).
  set (low := Z.pos m mod 2 ^ 52) in *.
  assert (Hlead : 0 <= lead < 16).
  { unfold lead. split; [apply Z.div_pos; lia |].
    apply Z.div_lt_upper_bound; lia. }
  assert (Hlow : 0 <= low < 2 ^ 52) by (apply Z.mod_pos_bound; lia).
  destruct (strip_zeros (hex_digits 13 low)) as [j Hj]. fold fraction in Hj.
  assert (Hrange : Forall (fun d => 0 <= d < 16) fraction)
    by (apply strip_range, hex_digits_range).
  assert (Hlen : (List.length fraction + j = 13)%nat).
  { apply (f_equal (@List.length Z)) in Hj.
    rewrite length_hex_digits, length_app, repeat_length in Hj. lia. }
  assert (Hval : hex_number (lead :: fraction) * 16 ^ Z.of_nat j = Z.pos m).
  { rewrite <- hex_number_app_zeros. simpl app. rewrite <- Hj.
    rewrite hex_number_cons, length_hex_digits, hex_number_digits.
    change (16 ^ Z.of_nat 13) with (2 ^ 52).
    rewrite (Z.mod_small low) by lia.
    unfold lead, low. rewrite Z.mul_comm. symmetry.
    apply Z.div_mod. lia. }
  assert (Hread : read_hex_float s
                    (String (hex_digit lead)
                       ((match fraction with
                         | [] => ""
                         | _ => String "." (digits_text fraction)
                         end)
                        ++ String "p" (exponent_text (e + 52))))
                  = binary_normalize prec emax
                      (if s then - hex_number (lead :: fraction)
                       else hex_number (lead :: fraction))
                      (e + 52 - 4 * Z.of_nat (List.length fraction)) s).
  { unfold read_hex_float. cbn [span_hex]. rewrite (hex_value_digit Hlead).
    destruct fraction as [| d r] eqn:Hf.
    - change ("" ++ String "p" (exponent_text (e + 52)))
        with (String "p" (exponent_text (e + 52))).
      rewrite span_hex_p. cbv beta iota. change (Ascii.eqb "p" "p") with true.
      cbn [orb]. rewrite read_exponent_text. reflexivity.
    - change ((String "." (digits_text (d :: r)))
              ++ String "p" (exponent_text (e + 52)))
        with (String "." (digits_text (d :: r)
                          ++ String "p" (exponent_text (e + 52)))).
      rewrite span_hex_dot. cbv beta iota.
      rewrite (span_hex_text (String "p" (exponent_text (e + 52))) Hrange)
        by reflexivity.
      cbv beta iota. change (Ascii.eqb "p" "p") with true.
      cbn [orb]. rewrite read_exponent_text. reflexivity. }
  rewrite Hread. clear Hread.
  assert (Hpos : 0 < hex_number (lead :: fraction)).
  { assert (0 < 16 ^ Z.of_nat j) by (apply Z.pow_pos_nonneg; lia). nia. }
  destruct (hex_number (lead :: fraction)) as [| m0 | m0] eqn:Hm0;
    [lia | | lia].
  replace (e + 52 - 4 * Z.of_nat (List.length fraction))
    with (e + 4 * Z.of_nat j) by lia.
  assert (Hm' : Z.pos m = Z.pos m0 * 2 ^ (4 * Z.of_nat j)).
  { rewrite Z.pow_mul_r by lia. change (2 ^ 4) with 16. lia. }
  destruct s;
    (apply (@binary_round_exact _ m m0 e (4 * Z.of_nat j));
     [exact Hb | lia | exact Hm']).
Qed.

Lemma read_float_hex (s : bool) (r : string) :
  read_float (Ref.sign_text s ++ "0x" ++ r) = Some (read_hex_float s r).
Proof. destruct s; reflexivity. Qed.

Lemma read_float_print_a (x : spec_float) :
  valid_binary x = true -> read_float (print_a x) = Some x.
Proof.
  destruct x as [s | s | | s m e]; intros Hv.
  - destruct s; reflexivity.
  - destruct s; reflexivity.
  - reflexivity.
  - unfold print_a. cbv zeta. rewrite read_float_hex.
    f_equal. now apply read_hex_float_print.
Qed.

Lemma length_digits_text (ds : list Z) :
  String.length (digits_text ds) = List.length ds.
Proof. induction ds as [| d r IH]; simpl; auto. Qed.

Lemma length_append (s t : string) :
  String.length (s ++ t) = (String.length s + String.length t)%nat.
Proof. induction s as [| c s IH]; simpl; auto. Qed.

Lemma exponent_text_length (e : Z) :
  -1022 <= e <= 1023 -> (String.length (exponent_text e) <= 5)%nat.
Proof.
  intros He.
  assert (H : forallb (fun n => String.length
                                  (exponent_text (Z.of_nat n - 1022)) <=? 5)%nat
                      (seq 0 2046) = true) by (vm_compute; reflexivity).
  rewrite forallb_forall in H.
  specialize (H (Z.to_nat (e + 1022))).
  replace (Z.of_nat (Z.to_nat (e + 1022)) - 1022) with e in H by lia.
  apply Nat.leb_le, H, in_seq. lia.
Qed.

(** The text of a number has 24 characters at most. *)
Lemma print_a_length (x : spec_float) :
  valid_binary x = true -> (String.length (print_a x) <= 24)%nat.
Proof.
  destruct x as [s | s | | s m e]; intros Hv.
  - destruct s; simpl; lia.
  - destruct s; simpl; lia.
  - simpl. lia.
  - destruct (bounded_facts _ _ Hv) as [Hm He].
    unfold print_a. cbv zeta.
    set (fraction := strip (hex_digits 13 (Z.pos m mod 2 ^ 52))).
    assert (Hf : (List.length fraction <= 13)%nat).
    { destruct (strip_zeros (hex_digits 13 (Z.pos m mod 2 ^ 52)))
        as [j Hj]. fold fraction in Hj.
      apply (f_equal (@List.length Z)) in Hj.
      rewrite length_hex_digits, length_app in Hj. lia. }
    assert (He' : (String.length (exponent_text (e + 52)) <= 5)%nat)
      by (apply exponent_text_length; lia).
    rewrite !length_append. cbn [String.length].
    rewrite length_append. cbn [String.length].
    assert (Hs : (String.length (Ref.sign_text s) <= 1)%nat)
      by (destruct s; simpl; lia).
    assert (Hp : (String.length
                    match fraction with
                    | [] => ""
                    | _ :: _ => String "." (digits_text fraction)
                    end <= 14)%nat).
    { destruct fraction; [simpl; lia |].
      cbn [String.length]. rewrite length_digits_text. lia. }
    lia.
Qed.

Lemma substring_whole (s : string) (n : nat) :
  (String.length s <= n)%nat -> substring 0 n s = s.
Proof.
  revert n. induction s as [| c s IH]; intros n H.
  - now destruct n.
  - destruct n as [| n]; simpl in *; [lia |]. rewrite IH; [reflexivity | lia].
Qed.

(** With a buffer of 25 bytes or more, [strtod] returns the very number
    that [snprintf] printed with ["%a"]. *)
Lemma strtod_reads_back (size : Z) (d : float) :
  25 <= size -> strtod (snprintf_a size d) = d.
Proof.
  intros Hsize. unfold strtod, snprintf_a.
  pose proof (Prim2SF_valid d) as Hv.
  rewrite substring_whole
    by (pose proof (print_a_length _ Hv); lia).
  rewrite (read_float_print_a _ Hv). apply SF2Prim_Prim2SF.
Qed.

(** A buffer of 24 bytes is too small: the exponent of a number of 24
    characters loses its last digit. *)
Lemma strtod_truncated :
  snprintf_a 24 (-0x1.999999999999ap-1022)%float = "-0x1.999999999999ap-102"
  /\ strtod (snprintf_a 24 (-0x1.999999999999ap-1022)%float)
     = (-0x1.999999999999ap-102)%float.
Proof. split; vm_compute; reflexivity. Qed.

End C99Facts.


(** C10. On the libc of the C standard, and as soon as [DOUBLE_STR_LEN]
    is 25 or more (24 characters, the longest text ["%a"] prints for a
    [double], and the NUL), [strtod_unalloc] returns from the text of
    [num_to_str] the very number that was printed, for every [double],
    the finite ones in particular; so every operand that [apply_operator]
    pushes reads back as the number that it computed. *)
Theorem num_to_str_round_trip (size : Z) :
  25 <= size ->
  (forall d,
      @strtod_unalloc (C99.libc size) (@num_to_str (C99.libc size) d) = d)
  /\ (forall operator unary operands t rest,
         @apply_operator (C99.libc size) operator unary operands
         = Some (t :: rest) ->
         exists v,
           t = @num_to_str (C99.libc size) v
           /\ @strtod_unalloc (C99.libc size) t = v).
Proof.
  intros Hsize.
  assert (Hrt : forall d,
             @strtod_unalloc (C99.libc size) (@num_to_str (C99.libc size) d)
             = d)
    by (intros d; now apply C99Facts.strtod_reads_back).
  split; [exact Hrt |].
  intros operator unary operands t rest. unfold apply_operator.
  destruct operands as [| top [| top1 ops]], unary;
    repeat match goal with
           | |- context [Ascii.eqb ?a ?b] => destruct (Ascii.eqb a b)
           end;
    intros H; inversion H; eexists; (split; [reflexivity | apply Hrt]).
Qed.

(** The round trip of [0.1] through a buffer of 32 bytes. *)
Lemma num_to_str_round_trip_witness :
  @num_to_str (C99.libc 32) 0x1.999999999999ap-4%float
  = "0x1.999999999999ap-4"
  /\ @strtod_unalloc (C99.libc 32)
       (@num_to_str (C99.libc 32) 0x1.999999999999ap-4%float)
     = 0x1.999999999999ap-4%float.
Proof.
  split; [vm_compute; reflexivity |].
  refine (proj1 (@num_to_str_round_trip 32 _) _). lia.
Defined.

(** The specification of the evaluator at ["3"; "4"], the binary [-] and
    the unary [!] on the reference libc, which reads back what it prints:
    the operands pushed have the values [4 - 3 = 1] and [3! = 6]. *)
Lemma apply_operator_spec_witness :
  (exists t,
      @apply_operator Ref.libc "-" false ["3"; "4"] = Some [t]
      /\ Ref.strtod t = 1%float)
  /\ (exists t,
         @apply_operator Ref.libc "!" true ["3"; "4"] = Some [t; "4"]
         /\ Ref.strtod t = 6%float)
  /\ @apply_operator Ref.libc "*" true ["3"; "4"] = None.
Proof.
  destruct (@apply_operator_spec Ref.libc "-" false ["3"; "4"])
    as (_ & _ & Hbin & _).
  destruct (@apply_operator_spec Ref.libc "!" true ["3"; "4"])
    as (_ & Hun & _ & _).
  destruct (@apply_operator_spec Ref.libc "*" true ["3"; "4"])
    as (Hfail & _ & _ & _).
  split; [| split].
  - destruct (proj1 (proj2 (Hbin "3" "4" [] eq_refl eq_refl)) eq_refl)
      as (t & Happ & _ & Hval).
    exists t. split; [exact Happ |].
    exact (Hval (RefFacts.strtod_snprintf_a 32)).
  - destruct (proj2 (proj2 (Hun "3" ["4"] eq_refl eq_refl)) eq_refl)
      as (t & Happ & _ & Hval).
    exists t. split; [exact Happ |].
    exact (Hval (RefFacts.strtod_snprintf_a 32)).
  - apply Hfail. right. right. repeat split; discriminate.
Defined.


(** ** The theorems at concrete inputs, on the reference libc *)

(** The resolution of [^] after [^], and of [-] over [^] over [*]. *)
Lemma operator_resolution_witness :
  @on_operator Ref.libc "^" 3
    {| token_pos := -1; paren_depth := 0; paren_pos := -1; prev_chr := "3";
       operands := ["3"; "2"]; operators := [mk_item "^" false];
       trace := [] |}
  = Running
      {| token_pos := -1; paren_depth := 0; paren_pos := -1; prev_chr := "3";
         operands := ["3"; "2"];
         operators := [mk_item "^" false; mk_item "^" false];
         trace := [] |}
  /\ @on_operator Ref.libc "-" 5
       {| token_pos := -1; paren_depth := 0; paren_pos := -1;
          prev_chr := "2"; operands := ["2"; "3"; "2"];
          operators := [mk_item "^" false; mk_item "*" false];
          trace := [] |}
     = Running
         {| token_pos := -1; paren_depth := 0; paren_pos := -1;
            prev_chr := "2"; operands := ["0x12000000000000p-49"; "2"];
            operators := [mk_item "-" false; mk_item "*" false];
            trace := [mk_item "^" false] |}.
Proof.
  split.
  - refine (proj1 (proj2 (proj2 (@operator_resolution Ref.libc "^" 3
       {| token_pos := -1; paren_depth := 0; paren_pos := -1;
          prev_chr := "3"; operands := ["3"; "2"];
          operators := [mk_item "^" false]; trace := [] |})))
       "^"%char false [] eq_refl _).
    vm_compute. discriminate.
  - refine (eq_trans
              (proj1 (proj2 (proj2 (proj2
                 (@operator_resolution Ref.libc "-" 5
                    {| token_pos := -1; paren_depth := 0; paren_pos := -1;
                       prev_chr := "2"; operands := ["2"; "3"; "2"];
                       operators := [mk_item "^" false; mk_item "*" false];
                       trace := [] |}))))
                 "^"%char false [mk_item "*" false] eq_refl _ _) _).
    + vm_compute. reflexivity.
    + left. vm_compute. reflexivity.
    + vm_compute. reflexivity.
Defined.

(** C1. The code does not resolve operators as the specification and
    its own table [op_order] have it. A stacked operator of the rank of
    the one read is not applied: when the second [-] of ["8-4-2"] is read,
    the first is still stacked, with [4] and [8] as operands, and
    [apply_operator] has not been called, so the drain computes
    [8-(4-2) = 6], where the left-to-right order gives 2; likewise
    ["1-2+3"] comes out as [1-(2+3) = -4], where it is 2, and ["2^3^2"]
    as [2^(3^2) = 512], where the left-to-right order gives 64. And a
    single operator is applied where the specification pops repeatedly:
    when the [-] of ["2*3^2-1"] is read over [^] and [*], both of higher
    precedence, [^] alone is applied and [*] stays under [-], so the
    result is [2*(9-1) = 16], where [*] before [-] gives 17. *)
Lemma operator_resolution_failing_inputs :
  @scan Ref.libc "8-4-2" 4
  = Running
      {| token_pos := -1; paren_depth := 0; paren_pos := -1; prev_chr := "-";
         operands := ["4"; "8"];
         operators := [mk_item "-" false; mk_item "-" false];
         trace := [] |}
  /\ @shunting_yard Ref.libc "8-4-2" = Ok 6%float
  /\ @shunting_yard Ref.libc "1-2+3" = Ok (-4)%float
  /\ @scan Ref.libc "2^3^2" 4
     = Running
         {| token_pos := -1; paren_depth := 0; paren_pos := -1;
            prev_chr := "^"; operands := ["3"; "2"];
            operators := [mk_item "^" false; mk_item "^" false];
            trace := [] |}
  /\ @shunting_yard Ref.libc "2^3^2" = Ok 512%float
  /\ @scan Ref.libc "2*3^2-1" 6
     = Running
         {| token_pos := -1; paren_depth := 0; paren_pos := -1;
            prev_chr := "-"; operands := ["0x12000000000000p-49"; "2"];
            operators := [mk_item "-" false; mk_item "*" false];
            trace := [mk_item "^" false] |}
  /\ @shunting_yard Ref.libc "2*3^2-1" = Ok 16%float.
Proof.
  repeat split; vm_compute; reflexivity.
Qed.

(** The unary chains on the reference libc. *)
Lemma unary_chains_witness :
  @shunting_yard Ref.libc "--5" = Ok 5%float
  /\ @shunting_yard Ref.libc "-3!" = Ok (-6)%float.
Proof.
  destruct (@unary_chains Ref.libc) as (H5 & _ & H3 & _).
  - intros d. apply RefFacts.strtod_snprintf_a.
  - vm_compute. reflexivity.
  - vm_compute. reflexivity.
  - split; [exact H5 | apply H3; reflexivity].
Defined.

(** A [)] at depth zero, and an input that ends inside a parenthesis. *)
Lemma paren_errors_witness :
  @shunting_yard Ref.libc "2+3)" = Err ERROR_RIGHT_PAREN (Col 3)
  /\ @shunting_yard Ref.libc "(2+3" = Err ERROR_LEFT_PAREN (Col 0).
Proof.
  split.
  - refine (proj1 (@paren_errors Ref.libc "2+3)") 3%nat
       {| token_pos := 2; paren_depth := 0; paren_pos := -1;
          prev_chr := "3"; operands := ["2"];
          operators := [mk_item "+" false]; trace := [] |} _ _ _ _).
    + vm_compute. reflexivity.
    + vm_compute. reflexivity.
    + vm_compute. reflexivity.
    + right. vm_compute. reflexivity.
  - refine (proj1 (proj2 (@paren_errors Ref.libc "(2+3")
       {| token_pos := -1; paren_depth := 1; paren_pos := 0;
          prev_chr := NUL; operands := ["3"; "2"];
          operators := [mk_item "+" false; mk_item "(" false];
          trace := [] |} _ _)).
    + left. vm_compute. reflexivity.
    + discriminate.
Defined.

(** C6 fails as stated. In ["(1)+(2"] the first open parenthesis seen is
    at column 0, and it is closed; the error is reported at column 4, the
    parenthesis left open. And the [)] of ["1.2.3)"], read at depth zero,
    is not reported: the operand that ends there fails the syntax check
    first. *)
Lemma paren_errors_counterexample :
  char_at "(1)+(2" 0 = "("%char
  /\ @shunting_yard Ref.libc "(1)+(2" = Err ERROR_LEFT_PAREN (Col 4)
  /\ @scan Ref.libc "1.2.3)" 5
     = Running
         {| token_pos := 0; paren_depth := 0; paren_pos := -1;
            prev_chr := "3"; operands := []; operators := [];
            trace := [] |}
  /\ char_at "1.2.3)" 5 = ")"%char
  /\ @shunting_yard Ref.libc "1.2.3)" = Err ERROR_SYNTAX_OPERAND (Col 0).
Proof.
  repeat split; vm_compute; reflexivity.
Qed.

(** The end of ["2(3)"], with two operands left, and of a blank input. *)
Lemma final_result_witness :
  @shunting_yard Ref.libc "2(3)" = Ok (Ref.strtod "3")
  /\ @shunting_yard Ref.libc "  " = Err ERROR_NO_INPUT NO_COL_NUM
  /\ @shunting_yard Ref.libc "" = Err ERROR_NO_INPUT NO_COL_NUM.
Proof.
  split; [| split].
  - refine (proj1 (@final_result Ref.libc "2(3)")
       {| token_pos := -1; paren_depth := 0; paren_pos := 1;
          prev_chr := NUL; operands := ["3"; "2"]; operators := [];
          trace := [] |} ["3"; "2"] [] _ _ _).
    + left. vm_compute. reflexivity.
    + vm_compute. reflexivity.
    + vm_compute. reflexivity.
  - exact (proj2 (@final_result Ref.libc "") 2%nat).
  - exact (proj2 (@final_result Ref.libc "") 0%nat).
Defined.

(** C7 fails as stated. ["2(3)"] ends with the two operands ["3"] and
    ["2"] on the stack and no operator; no error is raised and the top
    one, 3, is returned. (And white space other than the space is not
    skipped: a tabulation is an unrecognized character.) *)
Lemma final_result_counterexample :
  @scan Ref.libc "2(3)" 5
  = Running
      {| token_pos := -1; paren_depth := 0; paren_pos := 1; prev_chr := NUL;
         operands := ["3"; "2"]; operators := []; trace := [] |}
  /\ @shunting_yard Ref.libc "2(3)" = Ok 3%float
  /\ @shunting_yard Ref.libc (String (ascii_of_nat 9) EmptyString)
     = Err ERROR_UNRECOGNIZED (Col 0).
Proof.
  repeat split; vm_compute; reflexivity.
Qed.

(** The drain of ["2+"]. *)
Lemma drain_failure_witness :
  @shunting_yard Ref.libc "2+" = Err ERROR_SYNTAX_STACK NO_COL_NUM.
Proof.
  refine (proj1 (@drain_failure Ref.libc "2+")
     {| token_pos := -1; paren_depth := 0; paren_pos := -1;
        prev_chr := NUL; operands := ["2"];
        operators := [mk_item "+" false]; trace := [] |}
     [mk_item "+" false] _ _ _).
  - left. vm_compute. reflexivity.
  - vm_compute. reflexivity.
  - vm_compute. reflexivity.
Defined.

(** ** Further properties of the scanning loop *)

Section Scanning.

Context {L : Libc}.

Lemma scan_failed_at (str : string) (n : nat) e col tr :
  scan str n = Failed e col tr ->
  exists i st,
    (i < n)%nat /\ scan str i = Running st
    /\ body str i st = Failed e col tr.
Proof.
  induction n as [| n IH]; [discriminate |].
  rewrite scan_step.
  destruct (scan str n) as [st | st | e' col' tr'] eqn:Hn; simpl.
  - intros H. exists n, st. auto.
  - discriminate.
  - intros [= -> -> ->].
    destruct (IH eq_refl) as (i & st & Hi & Hs & Hb).
    exists i, st. auto.
Qed.

Lemma skip_fields (c : ascii) st st' :
  skip c st = Running st' \/ skip c st = Stopped st' ->
  token_pos st' = token_pos st /\ operands st' = operands st
  /\ operators st' = operators st /\ trace st' = trace st.
Proof.
  unfold skip. destruct (Ascii.eqb c newline);
    intros [H | H]; inversion H; subst; simpl; auto.
Qed.

Lemma right_paren_loop_token (i : nat) ops st st' :
  right_paren_loop i ops st = Running st' -> token_pos st' = token_pos st.
Proof.
  revert st. induction ops as [| item rest IH]; intros st; simpl.
  - intros [= <-]. reflexivity.
  - destruct (Ascii.eqb (head (val item)) "(").
    + intros [= <-]. reflexivity.
    + destruct (pop_and_apply item rest st) as [st1 |] eqn:Hpa;
        [| discriminate].
      apply pop_and_apply_fields in Hpa. destruct Hpa as (Ht & _).
      intros H. apply IH in H. congruence.
Qed.

Lemma on_operator_token (c : ascii) (i : nat) st st' :
  on_operator c i st = Running st' -> token_pos st' = token_pos st.
Proof.
  unfold on_operator.
  destruct (operators st) as [| top rest].
  - intros [= <-]. reflexivity.
  - destruct (_ && _).
    + destruct (pop_and_apply top rest st) as [st1 |] eqn:Hpa;
        [| discriminate].
      apply pop_and_apply_fields in Hpa. destruct Hpa as (Ht & _).
      intros [= <-]. exact Ht.
    + intros [= <-]. reflexivity.
Qed.

Lemma dispatch_token (c : ascii) (i : nat) st st' :
  dispatch c i st = Running st' \/ dispatch c i st = Stopped st' ->
  token_pos st' = token_pos st.
Proof.
  unfold dispatch.
  destruct (is_operator c).
  - destruct (on_operator c i st) as [st1 | st1 | e col tr] eqn:Hop; simpl.
    + intros H. apply skip_fields in H. apply on_operator_token in Hop.
      destruct H as (H & _). congruence.
    + now apply on_operator_not_stopped in Hop.
    + intros [H | H]; discriminate.
  - destruct (Ascii.eqb c "(").
    + intros H. apply skip_fields in H. now destruct H as (H & _).
    + destruct (Ascii.eqb c ")").
      * unfold on_right_paren.
        destruct (paren_depth st =? 0); simpl;
          [intros [H | H]; discriminate |].
        destruct (right_paren_loop i (operators st) st)
          as [st1 | st1 | e col tr] eqn:Hl; simpl.
        -- intros H. apply skip_fields in H.
           apply right_paren_loop_token in Hl.
           destruct H as (H & _). congruence.
        -- now apply right_paren_loop_not_stopped in Hl.
        -- intros [H | H]; discriminate.
      * destruct (_ && _); [intros [H | H]; discriminate |].
        intros H. apply skip_fields in H. now destruct H as (H & _).
Qed.

(** An iteration leaves [token_pos] as it was, or closes the operand, or
    opens one at the operand character it reads. *)
Lemma body_token (str : string) (i : nat) st st' :
  body str i st = Running st' \/ body str i st = Stopped st' ->
  token_pos st' = token_pos st
  \/ token_pos st' = -1
  \/ (token_pos st' = Z.of_nat i /\ is_operand (char_at str i) = true).
Proof.
  unfold body.
  destruct (Ascii.eqb (char_at str i) " ").
  - intros [H | H]; inversion H; subst. now left.
  - destruct (is_operand (char_at str i)) eqn:Hop.
    + intros H. apply skip_fields in H. destruct H as (H & _).
      destruct (token_pos st =? -1); simpl in H; [right; right | left]; auto.
    + destruct (negb (token_pos st =? -1)).
      * unfold end_of_operand. destruct (malformed _); simpl.
        -- intros [H | H]; discriminate.
        -- intros H. apply dispatch_token in H. right. left. exact H.
      * intros H. apply dispatch_token in H. now left.
Qed.

Lemma token_pos_inv (str : string) (n : nat) st :
  alive str n st ->
  token_pos st = -1
  \/ exists j, token_pos st = Z.of_nat j /\ (j < n)%nat
               /\ is_operand (char_at str j) = true.
Proof.
  revert st. induction n as [| n IH]; intros st Hal.
  - destruct Hal as [H | H]; inversion H. now left.
  - assert (Hweak : forall st0, alive str n st0 ->
                                token_pos st = token_pos st0 ->
                                token_pos st = -1
                                \/ exists j, token_pos st = Z.of_nat j
                                             /\ (j < S n)%nat
                                             /\ is_operand (char_at str j)
                                                = true).
    { intros st0 Hal0 Heq.
      destruct (IH st0 Hal0) as [H | (j & Hj & Hlt & Hop)];
        [left; congruence | right].
      exists j. split; [congruence |]. split; [lia | exact Hop]. }
    destruct (alive_step Hal) as [Hst | (st0 & Hrun & Hbody)].
    + apply (Hweak st); auto. now right.
    + apply body_token in Hbody.
      destruct Hbody as [H | [H | [H Hop]]].
      * apply (Hweak st0); auto. now left.
      * now left.
      * right. exists n. auto.
Qed.

Lemma is_operand_not_nul (c : ascii) : is_operand c = true -> c <> NUL.
Proof. intros H ->. discriminate. Qed.


Lemma right_paren_loop_failed_col (i : nat) ops st e col tr :
  right_paren_loop i ops st = Failed e col tr -> col = Col (Z.of_nat i).
Proof.
  revert st. induction ops as [| item rest IH]; intros st; simpl.
  - discriminate.
  - destruct (Ascii.eqb (head (val item)) "("); [discriminate |].
    destruct (pop_and_apply item rest st); [apply IH |].
    now intros [= _ <- _].
Qed.

(** The kinds of failure of an iteration, with their columns. *)
Lemma body_failed_cases (str : string) (i : nat) st e col tr :
  body str i st = Failed e col tr ->
  let c := char_at str i in
  (e = ERROR_SYNTAX_OPERAND /\ col = Col (token_pos st)
   /\ token_pos st <> -1)
  \/ (col = Col (Z.of_nat i)
      /\ ((e = ERROR_SYNTAX /\ (is_operator c = true \/ c = ")"%char))
          \/ (e = ERROR_RIGHT_PAREN /\ c = ")"%char)
          \/ (e = ERROR_UNRECOGNIZED /\ unrecognized c))).
Proof.
  intros Hb c. subst c. unfold body in Hb.
  destruct (Ascii.eqb_spec (char_at str i) " ") as [| Hsp]; [discriminate |].
  destruct (is_operand (char_at str i)) eqn:Hopd;
    [now apply skip_not_failed in Hb |].
  assert (Hdis : forall st1,
             dispatch (char_at str i) i st1 = Failed e col tr ->
             col = Col (Z.of_nat i)
             /\ ((e = ERROR_SYNTAX
                  /\ (is_operator (char_at str i) = true
                      \/ char_at str i = ")"%char))
                 \/ (e = ERROR_RIGHT_PAREN /\ char_at str i = ")"%char)
                 \/ (e = ERROR_UNRECOGNIZED
                     /\ unrecognized (char_at str i)))).
  { intros st1. unfold dispatch.
    destruct (is_operator (char_at str i)) eqn:Hopr.
    - unfold on_operator.
      destruct (operators st1) as [| top rest]; simpl.
      + intros H. now apply skip_not_failed in H.
      + destruct (_ && _).
        * destruct (pop_and_apply top rest st1); simpl.
          -- intros H. now apply skip_not_failed in H.
          -- intros [= <- <- _]. auto.
        * simpl. intros H. now apply skip_not_failed in H.
    - destruct (Ascii.eqb_spec (char_at str i) "(") as [| Hlp].
      + intros H. now apply skip_not_failed in H.
      + destruct (Ascii.eqb_spec (char_at str i) ")") as [Hrp | Hrp].
        * unfold on_right_paren.
          destruct (paren_depth st1 =? 0); simpl.
          -- intros [= <- <- _]. auto.
          -- destruct (right_paren_loop i (operators st1) st1) eqn:Hl; simpl.
             ++ intros H. now apply skip_not_failed in H.
             ++ discriminate.
             ++ intros [= <- <- _].
                pose proof (right_paren_loop_failed_col _ _ _ Hl) as Hcol.
                apply right_paren_loop_failed in Hl. subst.
                split; [reflexivity |]. left. auto.
        * destruct (Ascii.eqb_spec (char_at str i) NUL) as [Hn | Hn]; simpl.
          -- intros H. now apply skip_not_failed in H.
          -- destruct (Ascii.eqb_spec (char_at str i) newline) as [Hnl | Hnl];
               simpl.
             ++ intros H. now apply skip_not_failed in H.
             ++ intros [= <- <- _]. split; [reflexivity |].
                right. right. split; [reflexivity |].
                unfold unrecognized. repeat split; assumption. }
  destruct (Z.eqb_spec (token_pos st) (-1)) as [Htok | Htok]; simpl in Hb.
  - right. now apply (Hdis st).
  - unfold end_of_operand in Hb.
    destruct (malformed (span_text str i st)); simpl in Hb.
    + inversion Hb; subst. left. auto.
    + right. eapply Hdis. exact Hb.
Qed.



(** X2. A character that is no space, operand character, operator,
    parenthesis, NUL or newline stops the evaluation with
    [ERROR_UNRECOGNIZED] at its column, unless the operand that ends there
    fails its syntax check first. *)
Theorem unrecognized_character (str : string) (i : nat) (st : state) :
  scan str i = Running st ->
  unrecognized (char_at str i) ->
  token_pos st = -1 \/ malformed (span_text str i st) = false ->
  shunting_yard str = Err ERROR_UNRECOGNIZED (Col (Z.of_nat i)).
Proof.
  intros Hscan (Hsp & Hopd & Hopr & Hlp & Hrp & Hnul & Hnl) Hspan.
  assert (Hlt : (i < strlen str)%nat) by (now apply char_at_lt).
  assert (Hdis : forall st1, exists tr,
               dispatch (char_at str i) i st1
               = Failed ERROR_UNRECOGNIZED (Col (Z.of_nat i)) tr).
  { intros st1. unfold dispatch. rewrite Hopr.
    destruct (Ascii.eqb_spec (char_at str i) "("); [contradiction |].
    destruct (Ascii.eqb_spec (char_at str i) ")"); [contradiction |].
    destruct (Ascii.eqb_spec (char_at str i) NUL); [contradiction |].
    destruct (Ascii.eqb_spec (char_at str i) newline); [contradiction |].
    simpl. eauto. }
  assert (Hbody : exists tr, body str i st
                             = Failed ERROR_UNRECOGNIZED
                                      (Col (Z.of_nat i)) tr).
  { unfold body. rewrite Hopd.
    destruct (Ascii.eqb_spec (char_at str i) " "); [contradiction |].
    destruct (Z.eqb_spec (token_pos st) (-1)) as [E | E]; simpl.
    - apply Hdis.
    - destruct Hspan as [? | Hok]; [contradiction |].
      unfold end_of_operand. rewrite Hok. simpl. apply Hdis. }
  destruct Hbody as [tr Hbody].
  eapply body_failed; [exact Hscan | lia | exact Hbody].
Qed.

(** *** The first line *)

Lemma substring_nil (a b : nat) : substring a b EmptyString = EmptyString.
Proof. destruct a, b; reflexivity. Qed.

Lemma substring_zero (a : nat) (s : string) : substring a 0 s = EmptyString.
Proof.
  revert a. induction s as [| c s IH]; intros a; [apply substring_nil |].
  destruct a; simpl; [reflexivity | apply IH].
Qed.

Lemma substring_prefix (a b n : nat) (s : string) :
  (a + b <= n)%nat -> substring a b (substring 0 n s) = substring a b s.
Proof.
  intros Hle. apply get_correct. intros p.
  destruct (Nat.lt_ge_cases p b) as [Hp | Hp].
  - rewrite (substring_correct1 (substring 0 n s) a b p Hp).
    rewrite (substring_correct1 s a b p Hp).
    rewrite <- (Nat.add_0_r (p + a)) at 2.
    apply substring_correct1. lia.
  - rewrite (substring_correct2 (substring 0 n s) a b p Hp).
    now rewrite (substring_correct2 s a b p Hp).
Qed.

Lemma line_len_le_strlen (s : string) : (line_len s <= strlen s)%nat.
Proof.
  induction s as [| c s IH]; simpl; [lia |].
  destruct (Ascii.eqb c NUL); simpl; [lia |].
  destruct (Ascii.eqb c newline); lia.
Qed.

Lemma strlen_first_line (s : string) : strlen (first_line s) = line_len s.
Proof.
  unfold first_line. induction s as [| c s IH]; simpl; [reflexivity |].
  destruct (Ascii.eqb c NUL) eqn:E; simpl; [reflexivity |].
  destruct (Ascii.eqb c newline); simpl; [reflexivity |].
  rewrite E, IH. reflexivity.
Qed.

Lemma char_at_first_line (s : string) (k : nat) :
  (k < line_len s)%nat -> char_at (first_line s) k = char_at s k.
Proof.
  intros Hk. unfold char_at. rewrite strlen_first_line.
  pose proof (line_len_le_strlen s) as Hle.
  unfold first_line.
  replace (get k (substring 0 (line_len s) s)) with (get (k + 0) s)
    by (symmetry; now apply substring_correct1).
  rewrite Nat.add_0_r.
  destruct (Nat.ltb_spec k (line_len s)); [| lia].
  destruct (Nat.ltb_spec k (strlen s)); [| lia]. reflexivity.
Qed.

Lemma char_at_strlen (s : string) : char_at s (strlen s) = NUL.
Proof.
  unfold char_at. rewrite Nat.ltb_irrefl. now destruct (get (strlen s) s).
Qed.

(** The line ends at the NUL of the string or at a newline before it. *)
Lemma char_at_line_len (s : string) :
  (char_at s (line_len s) = NUL /\ line_len s = strlen s)
  \/ (char_at s (line_len s) = newline /\ (line_len s < strlen s)%nat).
Proof.
  induction s as [| c s IH]; [left; split; reflexivity |].
  simpl line_len. simpl strlen.
  destruct (Ascii.eqb_spec c NUL) as [-> | Hn]; simpl.
  - left. split; reflexivity.
  - destruct (Ascii.eqb_spec c newline) as [-> | Hnl].
    + right. split; [reflexivity | lia].
    + unfold char_at in *. simpl.
      destruct (Ascii.eqb_spec c NUL); [contradiction |].
      change (S (line_len s) <? S (strlen s))%nat
        with (line_len s <? strlen s)%nat.
      destruct IH as [[H1 H2] | [H1 H2]]; [left | right];
        (split; [exact H1 | lia]).
Qed.

Lemma span_text_agree (s1 s2 : string) (n : nat) st :
  (forall a b, (a + b <= n)%nat -> substr s1 a b = substr s2 a b) ->
  span_text s1 n st = span_text s2 n st.
Proof.
  intros Hsub. unfold span_text. f_equal.
  destruct (Nat.le_gt_cases (Z.to_nat (token_pos st)) n) as [Hle | Hgt].
  - apply Hsub. lia.
  - replace (n - Z.to_nat (token_pos st))%nat with 0%nat by lia.
    unfold substr. now rewrite !substring_zero.
Qed.

Lemma body_agree (s1 s2 : string) (n : nat) st :
  char_at s1 n = char_at s2 n ->
  span_text s1 n st = span_text s2 n st ->
  body s1 n st = body s2 n st.
Proof.
  intros Hc Hs. unfold body, end_of_operand. now rewrite Hc, Hs.
Qed.

Lemma scan_agree (s1 s2 : string) (n : nat) :
  (forall k, (k < n)%nat -> char_at s1 k = char_at s2 k) ->
  (forall a b, (a + b <= n)%nat -> substr s1 a b = substr s2 a b) ->
  scan s1 n = scan s2 n.
Proof.
  induction n as [| n IH]; intros Hc Hs; [reflexivity |].
  rewrite !scan_step, IH.
  - destruct (scan s2 n) as [st | st | e col tr]; simpl; try reflexivity.
    apply body_agree; [apply Hc; lia |].
    apply span_text_agree. intros a b Hab. apply Hs. lia.
  - intros k Hk. apply Hc. lia.
  - intros a b Hab. apply Hs. lia.
Qed.

Lemma finish_prev_chr st c :
  finish {| token_pos := token_pos st; paren_depth := paren_depth st;
            paren_pos := paren_pos st; prev_chr := c;
            operands := operands st; operators := operators st;
            trace := trace st |}
  = finish st.
Proof. reflexivity. Qed.

(** At the end of the line the iteration closes the open operand, if any,
    and goes to [skip]. *)
Lemma body_end_of_line (str : string) (i : nat) st (c : ascii) :
  char_at str i = c -> c = NUL \/ c = newline ->
  body str i st
  = and_then (if negb (token_pos st =? -1) then end_of_operand str i st
              else Running st)
             (skip c).
Proof.
  intros Hc Hcase. unfold body. rewrite Hc.
  destruct Hcase as [-> | ->]; simpl;
    destruct (negb (token_pos st =? -1)); simpl; try reflexivity;
    destruct (end_of_operand str i st); reflexivity.
Qed.

Lemma shunting_yard_traced_first_line (s : string) :
  shunting_yard_traced s = shunting_yard_traced (first_line s).
Proof.
  unfold shunting_yard_traced.
  rewrite strlen_first_line.
  pose proof (char_at_line_len s) as Hend.
  pose proof (strlen_first_line s) as Hfl.
  set (m := line_len s) in *.
  assert (Hscan : scan s m = scan (first_line s) m).
  { apply scan_agree.
    - intros k Hk. symmetry. now apply char_at_first_line.
    - intros a b Hab. unfold substr, first_line. symmetry.
      now apply substring_prefix. }
  assert (Hspan : forall st,
             span_text s m st = span_text (first_line s) m st).
  { intros st. apply span_text_agree. intros a b Hab.
    unfold substr, first_line. symmetry. now apply substring_prefix. }
  assert (Hnul : char_at (first_line s) m = NUL).
  { rewrite <- Hfl. apply char_at_strlen. }
  destruct Hend as [[Hc Hlen] | [Hc Hlt]].
  - rewrite <- Hlen, !scan_step, Hscan.
    destruct (scan (first_line s) m) as [st | st | e col tr]; simpl;
      try reflexivity.
    rewrite (@body_agree s (first_line s) m st); [reflexivity | |].
    + now rewrite Hc, Hnul.
    + apply Hspan.
  - rewrite (scan_step (first_line s)), <- Hscan.
    destruct (scan s m) as [st | st | e col tr] eqn:Hm; cbn [and_then].
    + rewrite (@body_end_of_line (first_line s) m st NUL Hnul)
        by (now left).
      assert (Hs : scan s (S m)
                   = and_then (if negb (token_pos st =? -1)
                               then end_of_operand s m st
                               else Running st)
                              (skip newline)).
      { rewrite scan_step, Hm. simpl.
        apply body_end_of_line; [exact Hc | now right]. }
      assert (Heo : end_of_operand (first_line s) m st
                    = end_of_operand s m st)
        by (unfold end_of_operand; now rewrite Hspan).
      rewrite Heo.
      destruct (if negb (token_pos st =? -1) then end_of_operand s m st
                else Running st) as [st1 | st1 | e col tr] eqn:Hx.
      * assert (Hs' : scan s (S m) = Stopped st1)
          by (rewrite Hs; reflexivity).
        rewrite (@scan_stopped_mono L s (S m) (S (strlen s)) st1 Hs')
          by lia.
        reflexivity.
      * assert (Hs' : scan s (S m) = Stopped st1)
          by (rewrite Hs; reflexivity).
        rewrite (@scan_stopped_mono L s (S m) (S (strlen s)) st1 Hs')
          by lia.
        reflexivity.
      * assert (Hs' : scan s (S m) = Failed e col tr)
          by (rewrite Hs; reflexivity).
        rewrite (@scan_failed_mono L s (S m) (S (strlen s)) _ _ _ Hs')
          by lia.
        reflexivity.
    + rewrite (@scan_stopped_mono L s m (S (strlen s)) st Hm) by lia.
      reflexivity.
    + rewrite (@scan_failed_mono L s m (S (strlen s)) _ _ _ Hm) by lia.
      reflexivity.
Qed.

Lemma shunting_yard_first_line (s : string) :
  shunting_yard s = shunting_yard (first_line s).
Proof.
  unfold shunting_yard. now rewrite shunting_yard_traced_first_line.
Qed.

Lemma first_line_app (s t : string) :
  first_line (s ++ String newline t) = first_line s.
Proof.
  unfold first_line. induction s as [| c s IH]; simpl.
  - reflexivity.
  - destruct (Ascii.eqb c NUL || Ascii.eqb c newline); [reflexivity |].
    simpl. now rewrite IH.
Qed.

(** *** Parentheses are counted *)

Lemma right_paren_loop_decrements (i : nat) ops st st' :
  (0 < open_parens ops)%nat ->
  right_paren_loop i ops st = Running st' ->
  paren_depth st' = paren_depth st - 1.
Proof.
  revert st. induction ops as [| item rest IH]; intros st; simpl.
  - lia.
  - unfold is_paren. destruct (Ascii.eqb (head (val item)) "(").
    + intros _ [= <-]. reflexivity.
    + intros Hpos.
      destruct (pop_and_apply item rest st) as [st1 |] eqn:Hpa;
        [| discriminate].
      apply pop_and_apply_fields in Hpa. destruct Hpa as (_ & Hd & _).
      intros H. apply IH in H; [| exact Hpos]. congruence.
Qed.

Lemma dispatch_depth (c : ascii) (i : nat) st st' :
  inv st ->
  dispatch c i st = Running st' \/ dispatch c i st = Stopped st' ->
  paren_depth st' = paren_depth st + depth_change c.
Proof.
  intros (Hs & Hd & Ht). unfold dispatch, depth_change.
  destruct (is_operator c) eqn:Hop.
  - destruct (Ascii.eqb_spec c "(") as [-> | _]; [discriminate |].
    destruct (Ascii.eqb_spec c ")") as [-> | _]; [discriminate |].
    destruct (on_operator c i st) as [st1 | st1 | e col tr] eqn:Ho; simpl.
    + intros H. apply skip_parens in H. apply on_operator_parens in Ho.
      destruct H, Ho. lia.
    + now apply on_operator_not_stopped in Ho.
    + intros [H | H]; discriminate.
  - destruct (Ascii.eqb_spec c "(") as [-> | _].
    + intros H. apply skip_parens in H. simpl in *. destruct H. lia.
    + destruct (Ascii.eqb_spec c ")") as [-> | _].
      * unfold on_right_paren.
        destruct (Z.eqb_spec (paren_depth st) 0) as [| Hnz]; simpl;
          [intros [H | H]; discriminate |].
        destruct (right_paren_loop i (operators st) st)
          as [st1 | st1 | e col tr] eqn:Hl; simpl.
        -- intros H. apply skip_parens in H.
           apply right_paren_loop_decrements in Hl; [| lia].
           destruct H. lia.
        -- now apply right_paren_loop_not_stopped in Hl.
        -- intros [H | H]; discriminate.
      * destruct (_ && _); [intros [H | H]; discriminate |].
        intros H. apply skip_parens in H. destruct H. lia.
Qed.

Lemma body_depth (str : string) (i : nat) st st' :
  inv st ->
  body str i st = Running st' \/ body str i st = Stopped st' ->
  paren_depth st' = paren_depth st + depth_change (char_at str i).
Proof.
  intros Hinv. unfold body.
  destruct (Ascii.eqb_spec (char_at str i) " ") as [E | _].
  - rewrite E. change (depth_change " ") with 0.
    intros [H | H]; inversion H; subst. lia.
  - destruct (is_operand (char_at str i)) eqn:Hop.
    + assert (Hz : depth_change (char_at str i) = 0).
      { unfold depth_change.
        destruct (Ascii.eqb_spec (char_at str i) "(") as [E | _];
          [rewrite E in Hop; discriminate |].
        destruct (Ascii.eqb_spec (char_at str i) ")") as [E | _];
          [rewrite E in Hop; discriminate | reflexivity]. }
      intros H. apply skip_parens in H. rewrite Hz.
      destruct (token_pos st =? -1); simpl in H; destruct H; lia.
    + destruct (negb (token_pos st =? -1)); [| now apply dispatch_depth].
      unfold end_of_operand. destruct (malformed _); simpl.
      * intros [H | H]; discriminate.
      * intros H. apply dispatch_depth in H; [exact H |].
        destruct Hinv as (Hs & Hd & Ht). unfold inv. simpl. auto.
Qed.

Lemma scan_running_before (str : string) (n k : nat) st :
  scan str n = Running st -> (k <= n)%nat -> exists st0, scan str k = Running st0.
Proof.
  intros Hn Hle. revert st Hn.
  induction Hle as [| n Hle IH]; intros st Hn; [eauto |].
  rewrite scan_step in Hn.
  destruct (scan str n) as [st0 | st0 | e col tr] eqn:H0; try discriminate.
  now apply (IH st0).
Qed.

Lemma scan_depth_count (str : string) (n : nat) st :
  scan str n = Running st ->
  paren_depth st
  = Z.of_nat (occurrences "(" str n) - Z.of_nat (occurrences ")" str n).
Proof.
  revert st. induction n as [| n IH]; intros st Hn.
  - inversion Hn. reflexivity.
  - rewrite scan_step in Hn.
    destruct (scan str n) as [st0 | st0 | e col tr] eqn:H0;
      try discriminate.
    simpl in Hn.
    pose proof (scan_inv str n) as Hinv. rewrite H0 in Hinv.
    rewrite (@body_depth str n st0 st Hinv) by (now left).
    rewrite (IH st0 eq_refl). unfold depth_change. simpl occurrences.
    destruct (Ascii.eqb (char_at str n) "(");
      destruct (Ascii.eqb (char_at str n) ")"); lia.
Qed.

Lemma body_stopped_char (str : string) (i : nat) st st' :
  body str i st = Stopped st' -> char_at str i = newline.
Proof.
  assert (Hskip : forall c st1, skip c st1 = Stopped st' -> c = newline).
  { intros c st1. unfold skip.
    destruct (Ascii.eqb_spec c newline); [auto | discriminate]. }
  assert (Hdis : forall st1,
             dispatch (char_at str i) i st1 = Stopped st' ->
             char_at str i = newline).
  { intros st1. unfold dispatch.
    destruct (is_operator (char_at str i)).
    - destruct (on_operator (char_at str i) i st1) eqn:Ho; simpl;
        [apply Hskip | | discriminate].
      now apply on_operator_not_stopped in Ho.
    - destruct (Ascii.eqb (char_at str i) "("); [apply Hskip |].
      destruct (Ascii.eqb (char_at str i) ")").
      + unfold on_right_paren.
        destruct (paren_depth st1 =? 0); simpl; [discriminate |].
        destruct (right_paren_loop i (operators st1) st1) eqn:Hl; simpl;
          [apply Hskip | | discriminate].
        now apply right_paren_loop_not_stopped in Hl.
      + destruct (_ && _); [discriminate | apply Hskip]. }
  unfold body.
  destruct (Ascii.eqb (char_at str i) " "); [discriminate |].
  destruct (is_operand (char_at str i)); [apply Hskip |].
  destruct (negb (token_pos st =? -1)); [| apply Hdis].
  unfold end_of_operand. destruct (malformed _); simpl;
    [discriminate | apply Hdis].
Qed.

Lemma scan_stopped_char (str : string) (n : nat) st :
  scan str n = Stopped st ->
  exists k, (k < n)%nat /\ char_at str k = newline.
Proof.
  induction n as [| n IH]; [discriminate |].
  rewrite scan_step.
  destruct (scan str n) as [st0 | st0 | e col tr]; simpl.
  - intros H. exists n. split; [lia |]. now apply body_stopped_char in H.
  - intros [= <-]. destruct (IH eq_refl) as (k & Hk & Hc).
    exists k. split; [lia | exact Hc].
  - discriminate.
Qed.

Lemma char_at_line (s : string) (k : nat) :
  (k < line_len s)%nat -> char_at s k <> NUL /\ char_at s k <> newline.
Proof.
  revert k. induction s as [| c s IH]; intros k; simpl; [lia |].
  destruct (Ascii.eqb_spec c NUL) as [| Hn]; simpl; [lia |].
  destruct (Ascii.eqb_spec c newline) as [| Hnl]; [lia |].
  intros Hk. unfold char_at. simpl.
  destruct (Ascii.eqb_spec c NUL); [contradiction |].
  destruct k as [| k]; simpl.
  - auto.
  - change (S k <? S (strlen s))%nat with (k <? strlen s)%nat.
    apply (IH k). lia.
Qed.

Lemma char_at_ge (s : string) (k : nat) :
  (strlen s <= k)%nat -> char_at s k = NUL.
Proof.
  intros H. unfold char_at.
  destruct (Nat.ltb_spec k (strlen s)); [lia |].
  now destruct (get k s).
Qed.

(** The loop runs to the end of the first line without [break]. *)
Lemma first_line_not_stopped (s : string) (n : nat) st :
  scan (first_line s) n <> Stopped st.
Proof.
  intros H. apply scan_stopped_char in H. destruct H as (k & _ & Hc).
  destruct (Nat.lt_ge_cases k (line_len s)) as [Hk | Hk].
  - rewrite (char_at_first_line _ Hk) in Hc.
    now apply (char_at_line _ Hk).
  - rewrite char_at_ge in Hc by (now rewrite strlen_first_line).
    discriminate.
Qed.

Lemma occurrences_agree (c : ascii) (s1 s2 : string) (n : nat) :
  (forall k, (k < n)%nat -> char_at s1 k = char_at s2 k) ->
  occurrences c s1 n = occurrences c s2 n.
Proof.
  induction n as [| n IH]; intros H; [reflexivity |].
  simpl. rewrite H by lia. rewrite IH; [reflexivity |].
  intros k Hk. apply H. lia.
Qed.

(** X5. When the evaluation returns a value, the parentheses of the line
    it read are balanced: as many [(] as [)], and no prefix with more [)]
    than [(]. *)
Theorem value_implies_balanced (str : string) (d : float) :
  shunting_yard str = Ok d ->
  occurrences "(" str (line_len str) = occurrences ")" str (line_len str)
  /\ forall n, (n <= line_len str)%nat ->
               (occurrences ")" str n <= occurrences "(" str n)%nat.
Proof.
  intros Hok. rewrite (shunting_yard_first_line str) in Hok.
  unfold shunting_yard, shunting_yard_traced in Hok.
  rewrite strlen_first_line in Hok.
  set (fl := first_line str) in *. set (m := line_len str) in *.
  destruct (scan fl (S m)) as [st | st | e col tr] eqn:Hscan;
    [| now apply first_line_not_stopped in Hscan | discriminate].
  assert (Hagree : forall n, (n <= m)%nat -> forall c,
               occurrences c fl n = occurrences c str n).
  { intros n Hn c. apply occurrences_agree. intros k Hk.
    apply char_at_first_line. unfold m in Hn. lia. }
  split.
  - assert (Hd : paren_depth st = 0).
    { unfold finish in Hok.
      destruct (Z.eqb_spec (paren_depth st) 0); [assumption |].
      discriminate. }
    pose proof (scan_depth_count _ _ Hscan) as Hc. rewrite Hd in Hc.
    simpl occurrences in Hc.
    assert (Hnul : char_at fl m = NUL).
    { apply char_at_ge. unfold fl, m. now rewrite strlen_first_line. }
    rewrite Hnul in Hc. simpl in Hc.
    rewrite !Hagree in Hc by lia. lia.
  - intros n Hn.
    destruct (@scan_running_before fl (S m) n st Hscan) as [st0 Hn0]; [lia |].
    pose proof (scan_depth_count _ _ Hn0) as Hc.
    assert (Hal : alive fl n st0) by (now left).
    pose proof (alive_depth_nonneg Hal) as Hnn.
    rewrite !Hagree in Hc by assumption. lia.
Qed.

(** *** Inputs without operands *)

Lemma apply_operator_nonempty (op : ascii) (u : bool) ops ops' :
  apply_operator op u ops = Some ops' -> ops' <> [].
Proof.
  unfold apply_operator.
  destruct ops as [| top [| top1 rest]], u;
    repeat match goal with
           | |- context [Ascii.eqb ?a ?b] => destruct (Ascii.eqb a b)
           end;
    intros H; inversion H; discriminate.
Qed.

Lemma drain_nil ops operands tr tr' :
  drain ops operands tr = (Some [], tr') -> ops = [] /\ operands = [].
Proof.
  revert operands tr. induction ops as [| item rest IH];
    intros operands tr; simpl.
  - intros [= -> _]. auto.
  - destruct (apply_operator _ _ _) as [operands' |] eqn:Ha;
      [| discriminate].
    intros H. apply IH in H. destruct H as [_ H].
    now apply apply_operator_nonempty in Ha.
Qed.

Lemma right_paren_loop_loaded (i : nat) ops st st' :
  operands st <> [] \/ Exists (fun item => is_paren item = false) ops ->
  right_paren_loop i ops st = Running st' ->
  operands st' <> []
  \/ Exists (fun item => is_paren item = false) (operators st').
Proof.
  revert st. induction ops as [| item rest IH]; intros st Hq; simpl.
  - intros [= <-]. simpl. destruct Hq as [H | H]; [now left |].
    inversion H.
  - destruct (Ascii.eqb (head (val item)) "(") eqn:E.
    + intros [= <-]. simpl. destruct Hq as [H | H]; [now left |].
      right. inversion H as [? ? Hit | ? ? Hrest]; subst; [| exact Hrest].
      unfold is_paren in Hit. congruence.
    + destruct (pop_and_apply item rest st) as [st1 |] eqn:Hpa;
        [| discriminate].
      apply pop_and_apply_fields in Hpa.
      destruct Hpa as (_ & _ & _ & _ & _ & _ & Ha).
      apply apply_operator_nonempty in Ha.
      apply IH. now left.
Qed.

Lemma dispatch_loaded (c : ascii) (i : nat) st st' :
  dispatch c i st = Running st' ->
  (is_operator c = true
   \/ operands st <> []
   \/ Exists (fun item => is_paren item = false) (operators st)) ->
  operands st' <> []
  \/ Exists (fun item => is_paren item = false) (operators st').
Proof.
  assert (Hskip : forall c st1 st2,
             skip c st1 = Running st2 ->
             operands st2 = operands st1 /\ operators st2 = operators st1).
  { intros c0 st1 st2 H.
    assert (H' : skip c0 st1 = Running st2 \/ skip c0 st1 = Stopped st2)
      by (now left).
    apply skip_fields in H'. tauto. }
  unfold dispatch. destruct (is_operator c) eqn:Hop.
  - intros H _.
    destruct (on_operator c i st) as [st1 | st1 | e col tr] eqn:Ho;
      simpl in H; try discriminate.
    apply Hskip in H. destruct H as [-> ->]. right.
    assert (Hnp : is_paren (mk_item (String c EmptyString)
                                    (is_unary c (prev_chr st))) = false).
    { apply symbol_not_paren. exact Hop. }
    unfold on_operator in Ho.
    destruct (operators st) as [| top rest].
    + inversion Ho. simpl. now constructor.
    + destruct (_ && _).
      * destruct (pop_and_apply top rest st); inversion Ho.
        simpl. now constructor.
      * inversion Ho. simpl. now constructor.
  - intros H [? | Hq]; [discriminate |].
    destruct (Ascii.eqb c "(").
    + apply Hskip in H. destruct H as [-> ->]. simpl.
      destruct Hq as [Hq | Hq]; [now left | right].
      now apply Exists_cons_tl.
    + destruct (Ascii.eqb c ")").
      * unfold on_right_paren in H.
        destruct (paren_depth st =? 0); simpl in H; [discriminate |].
        destruct (right_paren_loop i (operators st) st)
          as [st1 | st1 | e col tr] eqn:Hl; simpl in H; try discriminate.
        apply Hskip in H. destruct H as [-> ->].
        eapply right_paren_loop_loaded; eassumption.
      * destruct (_ && _); [discriminate |].
        apply Hskip in H. now destruct H as [-> ->].
Qed.

Lemma body_loaded (str : string) (i : nat) st st' :
  body str i st = Running st' ->
  (is_operand (char_at str i) = true \/ is_operator (char_at str i) = true
   \/ loaded st) ->
  loaded st'.
Proof.
  unfold body, loaded.
  destruct (Ascii.eqb_spec (char_at str i) " ") as [E | _].
  - intros [= <-]. rewrite E.
    intros [H | [H | H]]; [discriminate | discriminate | exact H].
  - destruct (is_operand (char_at str i)) eqn:Hop.
    + intros H _. left.
      assert (H' : token_pos st' <> -1).
      { unfold skip in H. destruct (Ascii.eqb _ newline); [discriminate |].
        inversion H. simpl.
        destruct (Z.eqb_spec (token_pos st) (-1)); simpl; [lia | assumption]. }
      exact H'.
    + destruct (Z.eqb_spec (token_pos st) (-1)) as [Htok | Htok]; simpl.
      * intros H [? | [Hq | [? | Hq]]];
          [discriminate | | contradiction |]; right;
          eapply dispatch_loaded; eauto.
      * unfold end_of_operand. destruct (malformed _); simpl;
          [discriminate |].
        intros H _. right. eapply dispatch_loaded; [exact H |].
        right. left. simpl. discriminate.
Qed.

Lemma scan_loaded (str : string) (n : nat) st :
  scan str n = Running st ->
  (exists k, (k < n)%nat
             /\ (is_operand (char_at str k) = true
                 \/ is_operator (char_at str k) = true)) ->
  loaded st.
Proof.
  revert st. induction n as [| n IH]; intros st Hn (k & Hk & Hc); [lia |].
  rewrite scan_step in Hn.
  destruct (scan str n) as [st0 | st0 | e col tr] eqn:H0; try discriminate.
  simpl in Hn. apply (@body_loaded str n st0 st Hn).
  destruct (Nat.eq_dec k n) as [-> | Hne]; [tauto |].
  right. right. apply (IH st0 eq_refl). exists k. split; [lia | exact Hc].
Qed.

(** The characters an iteration goes past. *)
Lemma body_running_char (str : string) (i : nat) st st' :
  body str i st = Running st' ->
  let c := char_at str i in
  c = " "%char \/ is_operand c = true \/ is_operator c = true
  \/ c = "("%char \/ c = ")"%char \/ c = NUL.
Proof.
  intros H c. subst c.
  destruct (Ascii.eqb_spec (char_at str i) " "); [now left |].
  destruct (is_operand (char_at str i)) eqn:Hopd; [tauto |].
  destruct (is_operator (char_at str i)) eqn:Hopr; [tauto |].
  destruct (Ascii.eqb_spec (char_at str i) "("); [tauto |].
  destruct (Ascii.eqb_spec (char_at str i) ")"); [tauto |].
  destruct (Ascii.eqb_spec (char_at str i) NUL); [tauto |].
  exfalso.
  assert (Hdis : forall st1, dispatch (char_at str i) i st1 <> Running st').
  { intros st1. unfold dispatch. rewrite Hopr.
    destruct (Ascii.eqb_spec (char_at str i) "("); [contradiction |].
    destruct (Ascii.eqb_spec (char_at str i) ")"); [contradiction |].
    destruct (Ascii.eqb_spec (char_at str i) NUL); [contradiction |].
    simpl. unfold skip.
    destruct (Ascii.eqb (char_at str i) newline); discriminate. }
  unfold body in H. rewrite Hopd in H.
  destruct (Ascii.eqb_spec (char_at str i) " "); [contradiction |].
  destruct (negb (token_pos st =? -1)); [| now apply Hdis in H].
  unfold end_of_operand in H. destruct (malformed _); simpl in H;
    [discriminate | now apply Hdis in H].
Qed.

(** X6. [ERROR_NO_INPUT] is reported only when the line read holds
    nothing but spaces and parentheses: no operand character and no
    operator. *)
Theorem no_input_only_spaces_and_parens (str : string) :
  shunting_yard str = Err ERROR_NO_INPUT NO_COL_NUM ->
  forall k, (k < line_len str)%nat ->
            char_at str k = " "%char \/ char_at str k = "("%char
            \/ char_at str k = ")"%char.
Proof.
  intros Herr k Hk. rewrite (shunting_yard_first_line str) in Herr.
  unfold shunting_yard, shunting_yard_traced in Herr.
  rewrite strlen_first_line in Herr.
  rewrite <- (char_at_first_line _ Hk).
  set (fl := first_line str) in *. set (m := line_len str) in *.
  destruct (scan fl (S m)) as [st | st | e col tr] eqn:Hscan.
  - (* the loop ended in [st]: nothing is stacked *)
    unfold finish in Herr.
    destruct (paren_depth st =? 0); simpl in Herr; [| discriminate].
    destruct (drain (operators st) (operands st) (trace st))
      as [[[| top rest] |] tr] eqn:Hdrain; try discriminate.
    apply drain_nil in Hdrain. destruct Hdrain as [Hops Hopd].
    assert (Htok : token_pos st = -1).
    { rewrite scan_step in Hscan.
      destruct (scan fl m) as [st0 | st0 | e col tr0]; try discriminate.
      simpl in Hscan.
      assert (Hnul : char_at fl m = NUL).
      { apply char_at_ge. unfold fl, m. now rewrite strlen_first_line. }
      rewrite (@body_end_of_line fl m st0 NUL Hnul) in Hscan by (now left).
      destruct (Z.eqb_spec (token_pos st0) (-1)) as [E | E]; simpl in Hscan.
      - inversion Hscan. exact E.
      - unfold end_of_operand in Hscan.
        destruct (malformed _); simpl in Hscan; [discriminate |].
        inversion Hscan. reflexivity. }
    assert (Hnot : ~ loaded st).
    { unfold loaded. rewrite Hops, Hopd. intros [H | [H | H]];
        [contradiction | contradiction | inversion H]. }
    destruct (@scan_running_before fl (S m) (S k) st Hscan) as [st1 Hk1];
      [lia |].
    rewrite scan_step in Hk1.
    destruct (scan fl k) as [st0 | st0 | e col tr0] eqn:Hk0;
      try discriminate.
    simpl in Hk1. pose proof (@body_running_char fl k st0 st1 Hk1) as Hc.
    simpl in Hc.
    assert (Hnone : ~ (is_operand (char_at fl k) = true
                       \/ is_operator (char_at fl k) = true)).
    { intros Hc'. apply Hnot. apply (@scan_loaded fl (S m) st Hscan).
      exists k. split; [lia | exact Hc']. }
    assert (Hnn : char_at fl k <> NUL).
    { unfold fl. rewrite (char_at_first_line _ Hk).
      now apply (char_at_line _ Hk). }
    tauto.
  - now apply first_line_not_stopped in Hscan.
  - simpl in Herr. inversion Herr; subst.
    destruct (scan_failed_at _ _ Hscan) as (i & st & _ & _ & Hbody).
    apply body_failed_cases in Hbody.
    destruct Hbody as [(? & _) | (_ & [(? & _) | [(? & _) | (? & _)]])];
      discriminate.
Qed.

(** *** The texts of the operand stack *)

Lemma in_string_get (c : ascii) (s : string) :
  In c (list_ascii_of_string s) -> exists p, get p s = Some c.
Proof.
  induction s as [| a s IH]; simpl; [tauto |].
  intros [-> | H]; [now exists 0%nat |].
  destruct (IH H) as [p Hp]. now exists (S p).
Qed.

Lemma in_string_app (c : ascii) (s t : string) :
  In c (list_ascii_of_string s) -> In c (list_ascii_of_string (s ++ t)).
Proof.
  induction s as [| a s IH]; simpl; [tauto |].
  intros [-> | H]; [now left | right; now apply IH].
Qed.

Lemma is_operand_not_space (c : ascii) :
  is_operand c = true -> isspace c = false.
Proof.
  destruct c as [[] [] [] [] [] [] [] []]; vm_compute;
    intros H; try reflexivity; discriminate.
Qed.

Lemma char_at_get (s : string) (k : nat) :
  char_at s k <> NUL -> get k s = Some (char_at s k).
Proof.
  unfold char_at. destruct (get k s); [| contradiction].
  destruct (k <? strlen s)%nat; [reflexivity | contradiction].
Qed.

Lemma body_span (str : string) (i : nat) st st' :
  span_open str i st -> body str i st = Running st' ->
  span_open str (S i) st'.
Proof.
  intros Hspan. unfold body.
  destruct (Ascii.eqb_spec (char_at str i) " ") as [E | _].
  - intros [= <-]. destruct Hspan as [H | (j & Hj & Hlt & Hop & Hall)];
      [now left | right].
    exists j. split; [exact Hj |]. split; [lia |]. split; [exact Hop |].
    intros k Hk. destruct (Nat.eq_dec k i) as [-> | Hne]; [now right |].
    apply Hall. lia.
  - destruct (is_operand (char_at str i)) eqn:Hopd.
    + unfold skip. destruct (Ascii.eqb _ newline); [discriminate |].
      intros [= <-]. right.
      destruct (Z.eqb_spec (token_pos st) (-1)) as [Htok | Htok]; simpl.
      * exists i. split; [reflexivity |]. split; [lia |].
        split; [exact Hopd |]. intros k Hk.
        assert (k = i) by lia. subst. now left.
      * destruct Hspan as [H | (j & Hj & Hlt & Hop & Hall)];
          [contradiction |].
        exists j. split; [exact Hj |]. split; [lia |]. split; [exact Hop |].
        intros k Hk. destruct (Nat.eq_dec k i) as [-> | Hne]; [now left |].
        apply Hall. lia.
    + intros H. left.
      assert (Hdis : forall st1, token_pos st1 = -1 ->
                                 dispatch (char_at str i) i st1 = Running st' ->
                                 token_pos st' = -1).
      { intros st1 H1 Hd.
        rewrite (@dispatch_token (char_at str i) i st1 st'); auto. }
      destruct (Z.eqb_spec (token_pos st) (-1)) as [Htok | Htok];
        simpl in H.
      * now apply (Hdis st).
      * unfold end_of_operand in H. destruct (malformed _); simpl in H;
          [discriminate |].
        eapply Hdis; [| exact H]. reflexivity.
Qed.

Lemma scan_span (str : string) (n : nat) st :
  scan str n = Running st -> span_open str n st.
Proof.
  revert st. induction n as [| n IH]; intros st Hn.
  - inversion Hn. now left.
  - rewrite scan_step in Hn.
    destruct (scan str n) as [st0 | st0 | e col tr] eqn:H0; try discriminate.
    simpl in Hn. eapply body_span; [| exact Hn]. now apply IH.
Qed.

(** The text of an operand that passes the syntax check is a literal. *)
Lemma span_text_literal (str : string) (i : nat) st :
  span_open str i st -> token_pos st <> -1 ->
  malformed (span_text str i st) = false ->
  literal (span_text str i st).
Proof.
  intros [? | (j & Hj & Hlt & Hop & Hall)] Htok Hmal; [contradiction |].
  unfold span_text in *. rewrite Hj, Nat2Z.id in *.
  set (sub := substr str j (i - j)) in *.
  destruct (rtrim_spec sub) as (w & Hsub & _ & _).
  assert (Hchars : forall c, In c (list_ascii_of_string sub) ->
                             is_operand c = true \/ c = " "%char).
  { intros c Hin. apply in_string_get in Hin. destruct Hin as [p Hp].
    assert (Hpb : (p < i - j)%nat).
    { destruct (Nat.lt_ge_cases p (i - j)) as [H | H]; [exact H |].
      unfold sub, substr in Hp.
      rewrite (substring_correct2 str j (i - j) p H) in Hp. discriminate. }
    unfold sub, substr in Hp.
    rewrite (substring_correct1 str j (i - j) p Hpb) in Hp.
    assert (Hk : (j <= p + j < i)%nat) by lia.
    pose proof (Hall _ Hk) as Hc.
    assert (Hnn : char_at str (p + j) <> NUL)
      by (destruct Hc as [Hc | Hc];
          [now apply is_operand_not_nul | rewrite Hc; discriminate]).
    rewrite (char_at_get _ _ Hnn) in Hp. inversion Hp; subst. exact Hc. }
  assert (Hhead : exists r, sub = String (char_at str j) r).
  { assert (Hg : get 0 sub = Some (char_at str j)).
    { unfold sub, substr.
      rewrite (substring_correct1 str j (i - j) 0) by lia. simpl.
      apply char_at_get. now apply is_operand_not_nul. }
    destruct sub as [| c r]; [discriminate |].
    simpl in Hg. inversion Hg. eauto. }
  assert (Hm : ~ (rtrim sub = "."
                  \/ In " "%char (list_ascii_of_string (rtrim sub))
                  \/ (2 <= count_occ ascii_dec
                             (list_ascii_of_string (rtrim sub)) "."%char)%nat)).
  { intros H. apply malformed_iff in H. congruence. }
  unfold literal. repeat split.
  - destruct Hhead as [r Hr]. rewrite Hr. simpl.
    rewrite (is_operand_not_space _ Hop).
    destruct (rtrim r); discriminate.
  - tauto.
  - intros c Hin.
    assert (Hin' : In c (list_ascii_of_string sub))
      by (rewrite Hsub; now apply in_string_app).
    destruct (Hchars c Hin') as [H | ->]; [exact H |].
    exfalso. apply Hm. right. now left.
  - destruct (Nat.le_gt_cases
                (count_occ ascii_dec (list_ascii_of_string (rtrim sub))
                           "."%char) 1) as [H | H]; [exact H |].
    exfalso. apply Hm. right. right. lia.
Qed.

Lemma substring_app_prefix (t w : string) :
  substring 0 (String.length t) (t ++ w) = t.
Proof.
  induction t as [| c t IH]; simpl; [now destruct w | now rewrite IH].
Qed.

Lemma length_app_le (t w : string) :
  (String.length t <= String.length (t ++ w))%nat.
Proof. induction t as [| c t IH]; simpl; lia. Qed.

Lemma length_substring_bound (a b : nat) (s : string) :
  (String.length (substring a b s) <= b)%nat.
Proof.
  revert a b. induction s as [| c s IH]; intros a b.
  - rewrite substring_nil. simpl. lia.
  - destruct a as [| a], b as [| b]; simpl; try lia.
    + specialize (IH 0%nat b). lia.
    + apply IH.
    + apply IH.
Qed.

Lemma substring_substring_0 (s : string) (a m n : nat) :
  (n <= m)%nat -> substring 0 n (substring a m s) = substring a n s.
Proof.
  revert a m n. induction s as [| c s IH]; intros a m n Hn.
  - now rewrite !substring_nil.
  - destruct a as [| a].
    + destruct m as [| m].
      * assert (n = 0%nat) by lia. subst. reflexivity.
      * destruct n as [| n]; [reflexivity |]. simpl. f_equal.
        apply (IH 0%nat). lia.
    + simpl. now apply IH.
Qed.

(** The text of an open operand is taken from the input. *)
Lemma span_text_from_input (str : string) (i : nat) st :
  span_open str i st -> token_pos st <> -1 ->
  from_input str (span_text str i st).
Proof.
  intros [? | (j & Hj & Hlt & Hop & Hall)] Htok; [contradiction |].
  unfold span_text. rewrite Hj, Nat2Z.id.
  set (sub := substr str j (i - j)).
  destruct (rtrim_spec sub) as (w & Hsub & _ & _).
  assert (Hlen : (String.length (rtrim sub) <= i - j)%nat).
  { pose proof (length_app_le (rtrim sub) w) as H1. rewrite <- Hsub in H1.
    pose proof (length_substring_bound j (i - j) str) as H2.
    unfold sub, substr in *. lia. }
  assert (Hi : (i <= strlen str)%nat).
  { destruct (Nat.le_gt_cases i (strlen str)) as [H | H]; [exact H |].
    exfalso.
    assert (Hk : (j <= i - 1 < i)%nat) by lia.
    assert (Hn : char_at str (i - 1) = NUL).
    { unfold char_at. destruct (Nat.ltb_spec (i - 1) (strlen str)); [lia |].
      now destruct (get (i - 1) str). }
    destruct (Hall _ Hk) as [Hc | Hc]; rewrite Hn in Hc; discriminate. }
  exists j. split; [lia |].
  rewrite <- (substring_app_prefix (rtrim sub) w) at 1.
  rewrite <- Hsub. unfold sub, substr. now apply substring_substring_0.
Qed.

Lemma apply_operator_shape (op : ascii) (u : bool) ops ops' :
  apply_operator op u ops = Some ops' ->
  exists d rest,
    ops' = num_to_str d :: rest /\ forall t, In t rest -> In t ops.
Proof.
  unfold apply_operator.
  destruct ops as [| top [| top1 rest]], u;
    repeat match goal with
           | |- context [Ascii.eqb ?a ?b] => destruct (Ascii.eqb a b)
           end;
    intros H; inversion H; eexists; eexists; (split; [reflexivity |]);
    simpl; tauto.
Qed.

Lemma apply_operator_ok (str : string) (op : ascii) (u : bool) ops ops' :
  Forall (operand_ok str) ops -> apply_operator op u ops = Some ops' ->
  Forall (operand_ok str) ops'.
Proof.
  intros Hall Ha. apply apply_operator_shape in Ha.
  destruct Ha as (d & rest & -> & Hin).
  constructor; [right; eauto |].
  rewrite Forall_forall in *. auto.
Qed.

Lemma right_paren_loop_operands (str : string) (i : nat) ops st :
  Forall (operand_ok str) (operands st) ->
  outcome_operands_ok str (right_paren_loop i ops st).
Proof.
  revert st. induction ops as [| item rest IH]; intros st Hall; simpl.
  - exact Hall.
  - destruct (Ascii.eqb (head (val item)) "("); [exact Hall |].
    destruct (pop_and_apply item rest st) as [st1 |] eqn:Hpa; [| exact I].
    apply pop_and_apply_fields in Hpa.
    destruct Hpa as (_ & _ & _ & _ & _ & _ & Ha).
    apply IH. eapply apply_operator_ok; eassumption.
Qed.

Lemma skip_operands (str : string) (c : ascii) (o : outcome) :
  outcome_operands_ok str o -> outcome_operands_ok str (and_then o (skip c)).
Proof.
  destruct o as [st | st | e col tr]; simpl; auto.
  unfold skip. destruct (Ascii.eqb c newline); simpl; auto.
Qed.

Lemma dispatch_operands (str : string) (c : ascii) (i : nat) st :
  Forall (operand_ok str) (operands st) ->
  outcome_operands_ok str (dispatch c i st).
Proof.
  intros Hall. unfold dispatch.
  destruct (is_operator c).
  - apply skip_operands. unfold on_operator.
    destruct (operators st) as [| top rest]; [exact Hall |].
    destruct (_ && _); [| exact Hall].
    destruct (pop_and_apply top rest st) as [st1 |] eqn:Hpa; [| exact I].
    apply pop_and_apply_fields in Hpa.
    destruct Hpa as (_ & _ & _ & _ & _ & _ & Ha).
    simpl. eapply apply_operator_ok; eassumption.
  - destruct (Ascii.eqb c "(").
    + apply (@skip_operands str c (Running (on_left_paren i st))).
      exact Hall.
    + destruct (Ascii.eqb c ")").
      * apply skip_operands. unfold on_right_paren.
        destruct (paren_depth st =? 0); [exact I |].
        now apply right_paren_loop_operands.
      * destruct (_ && _); [exact I |].
        apply (@skip_operands str c (Running st)). exact Hall.
Qed.

Lemma body_operands (str : string) (i : nat) st :
  span_open str i st -> Forall (operand_ok str) (operands st) ->
  outcome_operands_ok str (body str i st).
Proof.
  intros Hspan Hall. unfold body.
  destruct (Ascii.eqb (char_at str i) " "); [exact Hall |].
  destruct (is_operand (char_at str i)).
  - apply (@skip_operands str (char_at str i) (Running _)).
    destruct (token_pos st =? -1); exact Hall.
  - destruct (Z.eqb_spec (token_pos st) (-1)) as [Htok | Htok]; simpl;
      [now apply dispatch_operands |].
    unfold end_of_operand.
    destruct (malformed (span_text str i st)) eqn:Hmal; simpl; [exact I |].
    apply dispatch_operands. simpl. constructor; [| exact Hall].
    left. split; [now apply span_text_literal |].
    now apply span_text_from_input.
Qed.

Lemma scan_operands (str : string) (n : nat) :
  outcome_operands_ok str (scan str n).
Proof.
  induction n as [| n IH]; [constructor |].
  rewrite scan_step.
  destruct (scan str n) as [st | st | e col tr] eqn:Hn; simpl; auto.
  apply body_operands; [now apply scan_span | exact IH].
Qed.

Lemma drain_operands (str : string) ops operands tr operands' tr' :
  Forall (operand_ok str) operands ->
  drain ops operands tr = (Some operands', tr') ->
  Forall (operand_ok str) operands'.
Proof.
  revert operands tr. induction ops as [| item rest IH];
    intros operands tr Hall; simpl.
  - now intros [= <- _].
  - destruct (apply_operator _ _ _) as [ops1 |] eqn:Ha; [| discriminate].
    apply IH. eapply apply_operator_ok; eassumption.
Qed.

(** X4. Every text on the operand stack, at any point of the scan, is
    either a decimal literal (operand characters only, at most one point,
    not the point alone) that stands in the input, or a text printed by
    [num_to_str]; the same holds of the stack the final drain leaves, and
    a value returned is [strtod] of the top of that stack. So [strtod] is
    never given anything else. *)
Theorem operand_texts_well_formed (str : string) :
  (forall n st, alive str n st -> Forall (operand_ok str) (operands st))
  /\ (forall v,
         shunting_yard str = Ok v ->
         exists st top rest tr,
           alive str (S (strlen str)) st
           /\ drain (operators st) (operands st) (trace st)
              = (Some (top :: rest), tr)
           /\ Forall (operand_ok str) (top :: rest)
           /\ v = strtod_unalloc top).
Proof.
  split.
  - intros n st Hal. pose proof (scan_operands str n) as H.
    destruct Hal as [Hs | Hs]; rewrite Hs in H; exact H.
  - intros v. unfold shunting_yard, shunting_yard_traced.
    pose proof (scan_operands str (S (strlen str))) as H.
    destruct (scan str (S (strlen str))) as [st | st | e col tr] eqn:Hs;
      simpl in H; [| | discriminate].
    all: unfold finish;
      destruct (paren_depth st =? 0); simpl; [| discriminate];
      destruct (drain (operators st) (operands st) (trace st))
        as [[[| top rest] |] tr] eqn:Hd; simpl; try discriminate;
      intros [= <-]; exists st, top, rest, tr;
      (split; [unfold alive; rewrite Hs; auto |]);
      (split; [exact Hd |]);
      (split; [| reflexivity]);
      exact (drain_operands _ _ H Hd).
Qed.

End Scanning.

(** ** The command line *)

Section Arguments.

Lemma c_str_cons (c : ascii) (s : string) :
  c_str (String c s)
  = if Ascii.eqb c NUL then EmptyString else String c (c_str s).
Proof.
  unfold c_str. simpl. destruct (Ascii.eqb c NUL); reflexivity.
Qed.

Lemma c_str_nil : c_str EmptyString = EmptyString.
Proof. reflexivity. Qed.

Lemma length_c_str (s : string) : String.length (c_str s) = strlen s.
Proof.
  induction s as [| c s IH]; [reflexivity |].
  rewrite c_str_cons. simpl. destruct (Ascii.eqb c NUL); simpl; auto.
Qed.

Lemma strlen_c_str (s : string) : strlen (c_str s) = strlen s.
Proof.
  induction s as [| c s IH]; [reflexivity |].
  rewrite c_str_cons. simpl.
  destruct (Ascii.eqb c NUL) eqn:E; simpl; [reflexivity |].
  rewrite E. auto.
Qed.

Lemma c_str_nul_free (s : string) :
  strlen s = String.length s -> c_str s = s.
Proof.
  induction s as [| c s IH]; [reflexivity |].
  rewrite c_str_cons. simpl.
  destruct (Ascii.eqb c NUL); [discriminate |].
  intros [= H]. now rewrite IH.
Qed.

Lemma length_app (a b : string) :
  String.length (a ++ b) = (String.length a + String.length b)%nat.
Proof. induction a as [| c a IH]; simpl; auto. Qed.

Lemma strlen_app (a b : string) :
  strlen a = String.length a ->
  strlen (a ++ b) = (String.length a + strlen b)%nat.
Proof.
  induction a as [| c a IH]; simpl; [reflexivity |].
  destruct (Ascii.eqb c NUL); [discriminate |].
  intros [= H]. now rewrite IH.
Qed.

Lemma app_assoc_string (a b c : string) : (a ++ b) ++ c = a ++ (b ++ c).
Proof. induction a as [| x a IH]; simpl; [reflexivity | now rewrite IH]. Qed.

(** What [strcat] leaves is a C string without a NUL inside, as long as
    both texts together. *)
Lemma strcat_nul_free (dst src : string) :
  strlen (strcat dst src) = String.length (strcat dst src)
  /\ String.length (strcat dst src) = (strlen dst + strlen src)%nat.
Proof.
  unfold strcat.
  assert (H : String.length (c_str dst ++ c_str src)
              = (strlen dst + strlen src)%nat)
    by (now rewrite length_app, !length_c_str).
  split; [| exact H].
  rewrite strlen_app by (now rewrite strlen_c_str, length_c_str).
  now rewrite H, length_c_str, strlen_c_str.
Qed.

Lemma join_loop_nul_free (n : nat) (src : list string) :
  strlen (join_loop n src) = String.length (join_loop n src).
Proof.
  destruct n as [| n]; [reflexivity |]. simpl. apply strcat_nul_free.
Qed.

Lemma join_loop_length (n : nat) (src : list string) :
  Z.of_nat (strlen (join_loop n src)) + 1 <= argv_len (S n) src.
Proof.
  induction n as [| n IH].
  - simpl. lia.
  - change (argv_len (S (S n)) src)
      with (argv_len (S n) src
            + (Z.of_nat (strlen (nth (S n) src "")) + 1)).
    simpl join_loop.
    set (str := join_loop n src) in *.
    set (a := nth (S n) src "").
    destruct (strcat_nul_free (if (1 <? S n)%nat then strcat str " " else str)
                              a) as [H1 H2].
    rewrite H1, H2.
    destruct (1 <? S n)%nat.
    + destruct (strcat_nul_free str " ") as [H3 H4].
      rewrite H3, H4. simpl strlen. lia.
    + lia.
Qed.

Lemma argv_len_nonneg (n : nat) (src : list string) : 0 <= argv_len n src.
Proof. induction n as [| n IH]; simpl; lia. Qed.

Lemma concat_snoc (sep : string) (l : list string) (x : string) :
  l <> [] -> concat sep (l ++ [x])%list = concat sep l ++ sep ++ x.
Proof.
  induction l as [| a l IH]; [contradiction |]. intros _.
  destruct l as [| b l].
  - reflexivity.
  - change (concat sep ((a :: b :: l) ++ [x])%list)
      with (a ++ sep ++ concat sep ((b :: l) ++ [x])%list).
    rewrite IH by discriminate.
    change (concat sep (a :: b :: l)) with (a ++ sep ++ concat sep (b :: l)).
    now rewrite !app_assoc_string.
Qed.

Lemma firstn_snoc {A : Type} (l : list A) (k : nat) (d : A) :
  (k < List.length l)%nat ->
  firstn (S k) l = (firstn k l ++ [nth k l d])%list.
Proof.
  revert k. induction l as [| a l IH]; intros k; simpl; [lia |].
  destruct k as [| k]; [reflexivity |].
  intros H. simpl. f_equal. apply IH. lia.
Qed.

Lemma join_loop_concat (n : nat) (src : list string) :
  (n <= List.length (tl src))%nat ->
  join_loop n src = concat " " (map c_str (firstn n (tl src))).
Proof.
  induction n as [| n IH]; intros Hn; [reflexivity |].
  assert (Hnth : nth (S n) src "" = nth n (tl src) "")
    by (destruct src; [now destruct n | reflexivity]).
  rewrite (firstn_snoc (tl src) "") by lia.
  rewrite map_app. simpl map. simpl join_loop. rewrite Hnth.
  destruct n as [| n].
  - simpl. unfold strcat. reflexivity.
  - change (1 <? S (S n))%nat with true. cbv iota.
    rewrite concat_snoc.
    + rewrite <- IH by lia. unfold strcat.
      rewrite (c_str_nul_free (join_loop (S n) src))
        by apply join_loop_nul_free.
      change (c_str " ") with " ".
      rewrite c_str_nul_free.
      * now rewrite app_assoc_string.
      * rewrite strlen_app by apply join_loop_nul_free.
        now rewrite length_app.
    + destruct (tl src); [simpl in Hn; lia | discriminate].
Qed.

(** X7. [join_argv] returns the arguments after the program name, cut at
    their first NUL and separated by single spaces; the text holds no
    NUL, and it fits, terminator included, in the buffer allocated for
    it, as does the text after each iteration of the loop. *)
Theorem join_argv_spec (count : nat) (src : list string) :
  (1 <= count <= List.length src)%nat ->
  join_argv count src
  = concat " " (map c_str (firstn (count - 1) (tl src)))
  /\ strlen (join_argv count src) = String.length (join_argv count src)
  /\ forall n, (n < count)%nat ->
               Z.of_nat (strlen (join_loop n src)) + 1
               <= join_argv_size count src.
Proof.
  intros [H1 Hlen]. unfold join_argv. split; [| split].
  - apply join_loop_concat. destruct src; simpl in *; lia.
  - apply join_loop_nul_free.
  - intros n Hn. unfold join_argv_size.
    assert (Hmono : argv_len (S n) src <= argv_len count src).
    { clear - Hn. induction count as [| c IH]; [lia |].
      destruct (Nat.eq_dec (S n) (S c)) as [E | E].
      - rewrite E. lia.
      - assert (Hle : argv_len (S n) src <= argv_len c src)
          by (apply IH; lia).
        change (argv_len (S c) src)
          with (argv_len c src + (Z.of_nat (strlen (nth c src "")) + 1)).
        lia. }
    pose proof (join_loop_length n src).
    pose proof (argv_len_nonneg count src). nia.
Qed.

End Arguments.

(** The arguments [calc 2 + 3]. *)
Lemma join_argv_spec_witness :
  join_argv 4 ["calc"; "2"; "+"; "3"] = "2 + 3"
  /\ Z.of_nat (strlen (join_argv 4 ["calc"; "2"; "+"; "3"])) + 1
     <= join_argv_size 4 ["calc"; "2"; "+"; "3"].
Proof.
  destruct (@join_argv_spec 4 ["calc"; "2"; "+"; "3"]) as (Hc & _ & Hfit).
  - simpl. lia.
  - split; [exact Hc |]. apply (Hfit 3%nat). lia.
Defined.

(** ** Diagnostics *)

Section Reporting.

Variable TERM_WIDTH : Z.





Lemma get_c_str (s : string) (p : nat) :
  (p < strlen s)%nat -> get p (c_str s) = get p s.
Proof.
  revert p. induction s as [| c s IH]; intros p; simpl; [lia |].
  rewrite c_str_cons.
  destruct (Ascii.eqb c NUL); [lia |].
  destruct p as [| p]; [reflexivity |].
  intros H. simpl. apply IH. lia.
Qed.










End Reporting.

(** ** The display of the result *)

Section Trimming.

Context {L : Libc}.

Variables DECIMAL_DIG MIN_E_DIGITS : Z.

Variable snprintf_prec : Z -> bool -> Z -> float -> string.

Lemma append_nil_r (s : string) : s ++ "" = s.
Proof. induction s as [| c s IH]; simpl; [reflexivity | now rewrite IH]. Qed.

Lemma zeros_snoc (k : nat) : zeros k ++ "0" = zeros (S k).
Proof. induction k as [| k IH]; simpl; [reflexivity | now rewrite IH]. Qed.

Lemma substring_snoc (s : string) (i : nat) :
  (i < strlen s)%nat ->
  substring 0 (S i) s
  = substring 0 i s ++ String (char_at s i) EmptyString.
Proof.
  revert i. induction s as [| c s IH]; intros i; simpl; [lia |].
  destruct (Ascii.eqb_spec c NUL) as [| Hc]; [lia |].
  intros Hi. unfold char_at. simpl.
  destruct (Ascii.eqb_spec c NUL); [contradiction |].
  destruct i as [| i]; simpl.
  - now destruct s.
  - f_equal. change (S i <? S (strlen s))%nat with (i <? strlen s)%nat.
    apply IH. lia.
Qed.

Lemma strlen_substring_0 (s : string) (i : nat) :
  (i <= strlen s)%nat ->
  strlen (substring 0 i s) = i /\ String.length (substring 0 i s) = i.
Proof.
  revert i. induction s as [| c s IH]; intros i; simpl.
  - intros H. assert (i = 0%nat) by lia. subst. auto.
  - destruct (Ascii.eqb_spec c NUL) as [| Hc].
    + intros H. assert (i = 0%nat) by lia. subst. auto.
    + destruct i as [| i]; [auto |]. intros H. simpl.
      destruct (Ascii.eqb_spec c NUL); [contradiction |].
      destruct (IH i) as [H1 H2]; [lia |]. now rewrite H1, H2.
Qed.

(** What the loop of [trim_double] leaves of a text of [S i] characters. *)
Lemma trim_loop_spec (i : nat) (s : string) :
  strlen s = S i ->
  exists k,
    (c_str s = trim_loop i s ++ zeros k
     /\ ((String.length (trim_loop i s) <= 1)%nat
         \/ exists r0 c,
             trim_loop i s = r0 ++ String c EmptyString
             /\ c <> "0"%char /\ c <> "."%char))
    \/ (c_str s = trim_loop i s ++ String "." (zeros k)
        /\ trim_loop i s <> EmptyString).
Proof.
  revert s. induction i as [| j IH]; intros s Hlen.
  - exists 0%nat. left. simpl. rewrite append_nil_r.
    split; [reflexivity |]. left. rewrite length_c_str. lia.
  - assert (Hsnoc : c_str s
                    = substring 0 (S j) s
                      ++ String (char_at s (S j)) EmptyString).
    { unfold c_str. rewrite Hlen. apply substring_snoc. lia. }
    destruct (@strlen_substring_0 s (S j)) as [Hs1 Hs2]; [lia |].
    simpl trim_loop.
    destruct (Ascii.eqb_spec (char_at s (S j)) ".") as [Hdot | Hdot].
    + exists 0%nat. right. rewrite Hsnoc, Hdot. split; [reflexivity |].
      intros E. rewrite E in Hs2. discriminate.
    + destruct (Ascii.eqb_spec (char_at s (S j)) "0") as [Hz | Hz]; simpl.
      * destruct (IH (substring 0 (S j) s) Hs1) as [k Hk].
        rewrite (c_str_nul_free (substring 0 (S j) s)) in Hk
          by (now rewrite Hs1, Hs2).
        exists (S k). rewrite Hsnoc, Hz.
        destruct Hk as [[Heq Hlast] | [Heq Hne]]; [left | right].
        -- split; [| exact Hlast].
           rewrite Heq at 1. rewrite app_assoc_string.
           now rewrite zeros_snoc.
        -- split; [| exact Hne].
           rewrite Heq at 1. rewrite app_assoc_string. simpl.
           now rewrite zeros_snoc.
      * exists 0%nat. left. rewrite append_nil_r. split; [reflexivity |].
        right. rewrite Hsnoc. eauto.
Qed.

(** The loop of [trim_double] stops above index 0: the first character
    stays. *)
Lemma trim_loop_first (i : nat) (s : string) :
  strlen s = S i -> get 0 (trim_loop i s) = get 0 (c_str s).
Proof.
  revert s. induction i as [| j IH]; intros s Hlen; [reflexivity |].
  destruct (@strlen_substring_0 s (S j)) as [Hs1 Hs2]; [lia |].
  assert (Hsub : get 0 (substring 0 (S j) s) = get 0 (c_str s)).
  { rewrite get_c_str by lia.
    apply (substring_correct1 s 0 (S j) 0). lia. }
  simpl trim_loop.
  destruct (Ascii.eqb (char_at s (S j)) "."); [exact Hsub |].
  destruct (Ascii.eqb (char_at s (S j)) "0"); simpl; [| reflexivity].
  rewrite (IH _ Hs1).
  rewrite (c_str_nul_free (substring 0 (S j) s)) by (now rewrite Hs1, Hs2).
  exact Hsub.
Qed.

(** X10. [trim_double] returns the text [snprintf] printed without its
    trailing zeros, and without the point when the zeros reach it; the
    first character is kept in any case, so that a text that is not empty
    is never trimmed to the empty one (["0"] stays ["0"], ["000"] becomes
    ["0"]). Zeros are dropped wherever they end the text, be it in the
    fraction, in an exponent or in an integer printed without a point. *)
Theorem trim_double_spec (num : float) :
  let scientific :=
    PrimFloat.leb (pow (double_of_int 10) (double_of_int MIN_E_DIGITS)) num in
  let str := snprintf_prec (DECIMAL_DIG + 1) scientific MIN_E_DIGITS num in
  let r := trim_double DECIMAL_DIG MIN_E_DIGITS snprintf_prec num in
  get 0 r = get 0 (c_str str)
  /\ (c_str str <> EmptyString -> r <> EmptyString)
  /\ exists k,
      (c_str str = r ++ zeros k
       /\ ((String.length r <= 1)%nat
           \/ exists r0 c,
               r = r0 ++ String c EmptyString
               /\ c <> "0"%char /\ c <> "."%char))
      \/ (c_str str = r ++ String "." (zeros k) /\ r <> EmptyString).
Proof.
  intros scientific str r.
  assert (Hfirst : get 0 r = get 0 (c_str str)).
  { unfold r, trim_double. fold scientific. fold str.
    destruct (strlen str) as [| i] eqn:Hlen; [reflexivity |].
    replace (S i - 1)%nat with i by lia. now apply trim_loop_first. }
  split; [exact Hfirst |]. split.
  - intros Hne E. rewrite E in Hfirst.
    destruct (c_str str); [now apply Hne | discriminate].
  - unfold r, trim_double. fold scientific. fold str.
    destruct (strlen str) as [| i] eqn:Hlen.
    + exists 0%nat. left. simpl. rewrite append_nil_r.
      split; [reflexivity |]. left. rewrite length_c_str. lia.
    + replace (S i - 1)%nat with i by lia. now apply trim_loop_spec.
Qed.

End Trimming.

(** Texts as [snprintf] prints them: a fraction, an integer part alone,
    an exponent, and a lone zero. *)
Lemma trim_double_spec_witness :
  (exists k,
      c_str "2.500000"
      = @trim_double Ref.libc 17 6 (fun _ _ _ _ => "2.500000") 2.5%float
        ++ zeros k)
  /\ @trim_double Ref.libc 17 6 (fun _ _ _ _ => "0") 0%float <> ""
  /\ @trim_double Ref.libc 17 6 (fun _ _ _ _ => "2.500000") 2.5%float
     = "2.5"
  /\ @trim_double Ref.libc 17 6 (fun _ _ _ _ => "3.000000") 3%float = "3"
  /\ @trim_double Ref.libc 17 6 (fun _ _ _ _ => "1.500000e+10") 15000000000%float
     = "1.500000e+1"
  /\ @trim_double Ref.libc 17 6 (fun _ _ _ _ => "0") 0%float = "0".
Proof.
  split; [| split; [| repeat split; vm_compute; reflexivity]].
  - destruct (@trim_double_spec Ref.libc 17 6 (fun _ _ _ _ => "2.500000")
                                2.5%float) as (_ & _ & k & [[H _] | [H _]]).
    + exists k. exact H.
    + exfalso. revert H. vm_compute. discriminate.
  - apply (@trim_double_spec Ref.libc 17 6 (fun _ _ _ _ => "0") 0%float).
    vm_compute. discriminate.
Defined.

(** ** Every operator is applied once *)

Section Conservation.

Context {L : Libc}.











End Conservation.

(** ** From the error to its diagnostic *)

Section Composition.

Context {L : Libc}.

Variable TERM_WIDTH : Z.


End Composition.

(** ** A value needs an operand *)

Section Values.

Context {L : Libc}.

Lemma pop_and_apply_nonempty item rest st st' :
  pop_and_apply item rest st = Some st' -> operands st <> [].
Proof.
  unfold pop_and_apply. destruct (operands st); [discriminate |].
  discriminate.
Qed.

Lemma right_paren_loop_operands_from (i : nat) ops st st' :
  right_paren_loop i ops st = Running st' ->
  operands st' <> [] -> operands st <> [].
Proof.
  revert st. induction ops as [| item rest IH]; intros st; simpl.
  - now intros [= <-].
  - destruct (Ascii.eqb (head (val item)) "("); [now intros [= <-] |].
    destruct (pop_and_apply item rest st) as [st1 |] eqn:Hpa;
      [| discriminate].
    intros _ _. now apply pop_and_apply_nonempty in Hpa.
Qed.

Lemma dispatch_operands_from (c : ascii) (i : nat) st st' :
  dispatch c i st = Running st' \/ dispatch c i st = Stopped st' ->
  operands st' <> [] -> operands st <> [].
Proof.
  unfold dispatch. destruct (is_operator c).
  - destruct (on_operator c i st) as [st1 | st1 | e col tr] eqn:Ho; simpl.
    + intros H. apply skip_fields in H. destruct H as (_ & -> & _).
      unfold on_operator in Ho.
      destruct (operators st) as [| top rest]; [now inversion Ho |].
      destruct (_ && _); [| now inversion Ho].
      destruct (pop_and_apply top rest st) as [st2 |] eqn:Hpa;
        [| discriminate].
      intros _. now apply pop_and_apply_nonempty in Hpa.
    + now apply on_operator_not_stopped in Ho.
    + intros [H | H]; discriminate.
  - destruct (Ascii.eqb c "(").
    + intros H. apply skip_fields in H. now destruct H as (_ & -> & _).
    + destruct (Ascii.eqb c ")").
      * unfold on_right_paren.
        destruct (paren_depth st =? 0); simpl;
          [intros [H | H]; discriminate |].
        destruct (right_paren_loop i (operators st) st)
          as [st1 | st1 | e col tr] eqn:Hl; simpl.
        -- intros H. apply skip_fields in H. destruct H as (_ & -> & _).
           intros Hne. eapply right_paren_loop_operands_from; eassumption.
        -- now apply right_paren_loop_not_stopped in Hl.
        -- intros [H | H]; discriminate.
      * destruct (_ && _); [intros [H | H]; discriminate |].
        intros H. apply skip_fields in H. now destruct H as (_ & -> & _).
Qed.

Lemma body_operands_from (str : string) (i : nat) st st' :
  body str i st = Running st' \/ body str i st = Stopped st' ->
  operands st' <> [] -> operands st <> [] \/ token_pos st <> -1.
Proof.
  unfold body.
  destruct (Ascii.eqb (char_at str i) " ").
  - intros [H | H]; inversion H; subst. intros Hne. now left.
  - destruct (is_operand (char_at str i)).
    + intros H. apply skip_fields in H. destruct H as (_ & -> & _).
      destruct (token_pos st =? -1); simpl; intros Hne; now left.
    + destruct (Z.eqb_spec (token_pos st) (-1)) as [Htok | Htok]; simpl.
      * intros H Hne. left. eapply dispatch_operands_from; eassumption.
      * intros _ _. now right.
Qed.

Lemma scan_operand_seen (str : string) (n : nat) st :
  alive str n st -> operands st <> [] ->
  exists k, (k < n)%nat /\ is_operand (char_at str k) = true.
Proof.
  revert st. induction n as [| n IH]; intros st Hal Hne.
  - destruct Hal as [H | H]; inversion H; subst. now contradiction Hne.
  - destruct (alive_step Hal) as [Hst | (st0 & Hrun & Hbody)].
    + destruct (IH st) as (k & Hk & Hc); [now right | exact Hne |].
      exists k. split; [lia | exact Hc].
    + destruct (body_operands_from _ _ _ Hbody Hne) as [H0 | H0].
      * destruct (IH st0) as (k & Hk & Hc); [now left | exact H0 |].
        exists k. split; [lia | exact Hc].
      * assert (Hal0 : alive str n st0) by (now left).
        destruct (token_pos_inv Hal0) as [? | (j & _ & Hj & Hop)];
          [contradiction |].
        exists j. split; [lia | exact Hop].
Qed.

Lemma drain_operands_from ops operands tr operands' tr' :
  drain ops operands tr = (Some operands', tr') ->
  operands' <> [] -> operands <> [].
Proof.
  destruct ops as [| item rest]; simpl.
  - now intros [= <- _].
  - destruct operands; [discriminate | discriminate].
Qed.

(** X12. A value is returned only when the line read holds an operand
    character. *)
Theorem value_needs_operand (str : string) (v : float) :
  shunting_yard str = Ok v ->
  exists k, (k < line_len str)%nat /\ is_operand (char_at str k) = true.
Proof.
  rewrite shunting_yard_first_line.
  unfold shunting_yard, shunting_yard_traced. rewrite strlen_first_line.
  set (fl := first_line str). set (m := line_len str).
  destruct (scan fl (S m)) as [st | st | e col tr] eqn:Hscan;
    [| now apply first_line_not_stopped in Hscan | discriminate].
  unfold finish. destruct (paren_depth st =? 0); simpl; [| discriminate].
  destruct (drain (operators st) (operands st) (trace st))
    as [[[| top rest] |] tr] eqn:Hdrain; simpl; try discriminate.
  intros _.
  assert (Hne : operands st <> [])
    by (eapply drain_operands_from; [exact Hdrain | discriminate]).
  assert (Hal : alive fl (S m) st) by (now left).
  destruct (scan_operand_seen Hal Hne) as (k & Hk & Hc).
  assert (Hkm : (k < m)%nat).
  { destruct (Nat.lt_ge_cases k m) as [H | H]; [exact H |].
    rewrite char_at_ge in Hc
      by (unfold fl; rewrite strlen_first_line; exact H).
    discriminate. }
  exists k. split; [exact Hkm |].
  now rewrite <- (char_at_first_line _ Hkm).
Qed.

End Values.

(** ** The uninitialised [result] *)

Section Indeterminate.

Context {L : Libc}.

Variable u : float.

Lemma apply_operator_initialised (item : stack_item) (ops : list string) :
  reads_uninitialised item = false ->
  @apply_operator (with_uninitialised L u) (head (val item)) (flags item) ops
  = apply_operator (head (val item)) (flags item) ops.
Proof.
  unfold reads_uninitialised, apply_operator. cbv zeta.
  destruct (flags item); simpl; [reflexivity |].
  destruct ops as [| top [| top1 rest]]; try reflexivity.
  destruct (Ascii.eqb (head (val item)) "+"); [reflexivity |].
  destruct (Ascii.eqb (head (val item)) "-"); [reflexivity |].
  destruct (Ascii.eqb (head (val item)) "*"); [reflexivity |].
  destruct (Ascii.eqb (head (val item)) "/"); [reflexivity |].
  destruct (Ascii.eqb (head (val item)) "^"); [reflexivity |].
  discriminate.
Qed.

Lemma pop_and_apply_initialised (item : stack_item) rest st :
  reads_uninitialised item = false ->
  @pop_and_apply (with_uninitialised L u) item rest st
  = pop_and_apply item rest st.
Proof.
  intros H. unfold pop_and_apply.
  now rewrite (apply_operator_initialised _ _ H).
Qed.

Lemma pop_and_apply_trace (item : stack_item) rest st st' :
  pop_and_apply item rest st = Some st' -> trace st' = item :: trace st.
Proof.
  unfold pop_and_apply. destruct (apply_operator _ _ _); [| discriminate].
  now intros [= <-].
Qed.

Lemma skip_trace_running (c : ascii) (st : state) :
  outcome_trace (skip c st) = trace st.
Proof. unfold skip. now destruct (Ascii.eqb c newline). Qed.

Lemma skip_trace (c : ascii) (o : outcome) :
  outcome_trace (and_then o (skip c)) = outcome_trace o.
Proof.
  destruct o as [st | st | e col tr]; simpl; try reflexivity.
  unfold skip. now destruct (Ascii.eqb c newline).
Qed.

Lemma on_operator_initialised (c : ascii) (i : nat) st :
  initialised (outcome_trace (on_operator c i st)) ->
  @on_operator (with_uninitialised L u) c i st = on_operator c i st
  /\ initialised (trace st).
Proof.
  unfold on_operator. cbv zeta.
  destruct (operators st) as [| top rest]; simpl; [auto |].
  destruct (_ && _); simpl; [| auto].
  destruct (pop_and_apply top rest st) as [st1 |] eqn:Hpa; simpl.
  - rewrite (pop_and_apply_trace _ _ _ Hpa). intros H.
    inversion H; subst.
    rewrite pop_and_apply_initialised, Hpa by assumption. auto.
  - intros H. inversion H; subst.
    rewrite pop_and_apply_initialised, Hpa by assumption. auto.
Qed.

Lemma right_paren_loop_initialised (i : nat) ops st :
  initialised (outcome_trace (right_paren_loop i ops st)) ->
  @right_paren_loop (with_uninitialised L u) i ops st
  = right_paren_loop i ops st
  /\ initialised (trace st).
Proof.
  revert st. induction ops as [| item rest IH]; intros st; simpl; [auto |].
  destruct (Ascii.eqb (head (val item)) "("); simpl; [auto |].
  destruct (pop_and_apply item rest st) as [st1 |] eqn:Hpa; simpl.
  - intros H. destruct (IH st1 H) as [Heq Htr].
    rewrite (pop_and_apply_trace _ _ _ Hpa) in Htr.
    inversion Htr; subst.
    rewrite pop_and_apply_initialised, Hpa by assumption. auto.
  - intros H. inversion H; subst.
    rewrite pop_and_apply_initialised, Hpa by assumption. auto.
Qed.

Lemma dispatch_initialised (c : ascii) (i : nat) st :
  initialised (outcome_trace (dispatch c i st)) ->
  @dispatch (with_uninitialised L u) c i st = dispatch c i st
  /\ initialised (trace st).
Proof.
  unfold dispatch.
  destruct (is_operator c).
  - rewrite skip_trace. intros H.
    destruct (on_operator_initialised _ _ _ H) as [-> Htr]. auto.
  - destruct (Ascii.eqb c "(").
    + intros H. split; [reflexivity |].
      rewrite skip_trace_running in H. exact H.
    + destruct (Ascii.eqb c ")").
      * rewrite skip_trace. unfold on_right_paren.
        destruct (paren_depth st =? 0); simpl; [auto |].
        intros H. destruct (right_paren_loop_initialised _ _ _ H) as [-> Htr].
        auto.
      * destruct (_ && _); simpl; [auto |].
        intros H. split; [reflexivity |].
        rewrite skip_trace_running in H. exact H.
Qed.

Lemma body_initialised (str : string) (i : nat) st :
  initialised (outcome_trace (body str i st)) ->
  @body (with_uninitialised L u) str i st = body str i st
  /\ initialised (trace st).
Proof.
  unfold body. cbv zeta.
  destruct (Ascii.eqb (char_at str i) " "); simpl; [auto |].
  destruct (is_operand (char_at str i)).
  - intros H. split; [reflexivity |].
    rewrite skip_trace_running in H.
    destruct (token_pos st =? -1); exact H.
  - destruct (negb (token_pos st =? -1)); [| apply dispatch_initialised].
    unfold end_of_operand.
    destruct (malformed (span_text str i st)); simpl; [auto |].
    intros H. apply dispatch_initialised in H. exact H.
Qed.

Lemma scan_initialised (str : string) (n : nat) :
  initialised (outcome_trace (scan str n)) ->
  @scan (with_uninitialised L u) str n = scan str n.
Proof.
  induction n as [| n IH]; [reflexivity |].
  rewrite (@scan_step L), (@scan_step (with_uninitialised L u)).
  destruct (scan str n) as [st | st | e col tr] eqn:Hn; simpl.
  - intros H. destruct (body_initialised _ _ _ H) as [Hb Htr].
    rewrite (IH Htr). simpl. exact Hb.
  - intros H. now rewrite (IH H).
  - intros H. now rewrite (IH H).
Qed.

Lemma drain_initialised ops operands tr :
  initialised (snd (drain ops operands tr)) ->
  @drain (with_uninitialised L u) ops operands tr = drain ops operands tr
  /\ initialised tr.
Proof.
  revert operands tr. induction ops as [| item rest IH];
    intros operands tr; simpl; [auto |].
  destruct (apply_operator (head (val item)) (flags item) operands)
    as [ops1 |] eqn:Ha.
  - intros H. destruct (IH _ _ H) as [Heq Htr]. inversion Htr; subst.
    rewrite apply_operator_initialised, Ha by assumption. auto.
  - simpl. intros H. inversion H; subst.
    rewrite apply_operator_initialised, Ha by assumption. auto.
Qed.

Lemma finish_initialised st :
  initialised (snd (finish st)) ->
  @finish (with_uninitialised L u) st = finish st /\ initialised (trace st).
Proof.
  unfold finish.
  destruct (negb (paren_depth st =? 0)); simpl; [auto |].
  destruct (drain (operators st) (operands st) (trace st))
    as [r tr] eqn:Hd.
  intros H.
  assert (H' : initialised
                 (snd (drain (operators st) (operands st) (trace st)))).
  { rewrite Hd. destruct r as [[| top rest] |]; exact H. }
  destruct (drain_initialised _ _ _ H') as [-> Htr]. rewrite Hd. auto.
Qed.

(** An evaluation that never reads the uninitialised [result] does not
    depend on what it holds. *)
Lemma shunting_yard_traced_initialised (str : string) :
  initialised (snd (shunting_yard_traced str)) ->
  @shunting_yard_traced (with_uninitialised L u) str = shunting_yard_traced str.
Proof.
  unfold shunting_yard_traced.
  destruct (scan str (S (strlen str))) as [st | st | e col tr] eqn:Hs.
  - intros H. destruct (finish_initialised _ H) as [Hf Htr].
    rewrite scan_initialised by (rewrite Hs; exact Htr).
    rewrite Hs. exact Hf.
  - intros H. destruct (finish_initialised _ H) as [Hf Htr].
    rewrite scan_initialised by (rewrite Hs; exact Htr).
    rewrite Hs. exact Hf.
  - intros H. change (initialised tr) in H.
    rewrite scan_initialised by (rewrite Hs; exact H).
    now rewrite Hs.
Qed.

Lemma initialised_rev (tr : list stack_item) :
  initialised (rev tr) -> initialised tr.
Proof.
  unfold initialised. rewrite !Forall_forall.
  intros H x Hx. apply H. now apply -> in_rev.
Qed.

(** X3. The evaluation reads the input up to its first newline only: as
    long as it hands [apply_operator] no item on which the uninitialised
    [result] is read (a binary [!], as in ["1(!2)"], where C leaves the
    value indeterminate), the result of a call, value or error, is that
    of a call on the text before the newline, whatever follows the
    newline and whatever the two calls find in the uninitialised
    [result]. *)
Theorem newline_ends_input (s t : string) :
  initialised (applied s) ->
  @shunting_yard (with_uninitialised L u) (s ++ String newline t)
  = shunting_yard s
  /\ @shunting_yard (with_uninitialised L u) s = shunting_yard (first_line s)
  /\ @applied (with_uninitialised L u) (s ++ String newline t) = applied s.
Proof.
  intros H. apply initialised_rev in H.
  assert (Ht : shunting_yard_traced (s ++ String newline t)
               = shunting_yard_traced s).
  { rewrite (shunting_yard_traced_first_line (s ++ String newline t)).
    rewrite (shunting_yard_traced_first_line s).
    now rewrite first_line_app. }
  assert (H1 : @shunting_yard_traced (with_uninitialised L u)
                                     (s ++ String newline t)
               = shunting_yard_traced s).
  { rewrite <- Ht. apply shunting_yard_traced_initialised.
    rewrite Ht. exact H. }
  split; [| split].
  - unfold shunting_yard. now rewrite H1.
  - unfold shunting_yard.
    rewrite (shunting_yard_traced_initialised _ H).
    now rewrite shunting_yard_traced_first_line.
  - unfold applied. now rewrite H1.
Qed.

(** A read of the uninitialised [result]: in ["1(!2)"] the [!] follows
    [(], is stacked as a binary operator and is applied at the [)] to [1]
    and [2]; no case assigns [result], and the value returned is read back
    from its text. *)
Lemma binary_factorial_reads_uninitialised :
  applied "1(!2)" = [mk_item "!" false]
  /\ reads_uninitialised (mk_item "!" false) = true
  /\ shunting_yard "1(!2)" = Ok (strtod (num_to_str uninitialised)).
Proof.
  repeat split; vm_compute; reflexivity.
Qed.

End Indeterminate.

(** ** The further properties at concrete inputs *)


(** The [#] of ["2#3"], read after the operand ["2"]. *)
Lemma unrecognized_character_witness :
  @shunting_yard Ref.libc "2#3" = Err ERROR_UNRECOGNIZED (Col 1).
Proof.
  refine (@unrecognized_character Ref.libc "2#3" 1
     {| token_pos := 0; paren_depth := 0; paren_pos := -1; prev_chr := "2";
        operands := []; operators := []; trace := [] |} _ _ _).
  - vm_compute. reflexivity.
  - unfold unrecognized. vm_compute. repeat split; discriminate.
  - right. vm_compute. reflexivity.
Defined.

(** What follows the newline of ["2+3\n)"] is not read. *)
Lemma newline_ends_input_witness :
  @shunting_yard (with_uninitialised Ref.libc 1%float)
                 ("2+3" ++ String newline ")")
  = @shunting_yard Ref.libc "2+3"
  /\ @shunting_yard Ref.libc "2+3" = Ok 5%float.
Proof.
  split; [| vm_compute; reflexivity].
  refine (proj1 (@newline_ends_input Ref.libc 1%float "2+3" ")" _)).
  vm_compute. repeat constructor.
Defined.

(** The operand stack of ["2.5*(3+4"] before its end. *)
Lemma operand_texts_well_formed_witness :
  Forall (@operand_ok Ref.libc "2.5*(3+4") ["4"; "3"; "2.5"].
Proof.
  refine (proj1 (@operand_texts_well_formed Ref.libc "2.5*(3+4") 9%nat
     {| token_pos := -1; paren_depth := 1; paren_pos := 4; prev_chr := NUL;
        operands := ["4"; "3"; "2.5"];
        operators := [mk_item "+" false; mk_item "(" false;
                      mk_item "*" false];
        trace := [] |} _).
  left. vm_compute. reflexivity.
Defined.

(** The parentheses of ["(1+2)*3"]. *)
Lemma value_implies_balanced_witness :
  occurrences "(" "(1+2)*3" (line_len "(1+2)*3")
  = occurrences ")" "(1+2)*3" (line_len "(1+2)*3").
Proof.
  refine (proj1 (@value_implies_balanced Ref.libc "(1+2)*3" 9%float _)).
  vm_compute. reflexivity.
Defined.

(** The characters of ["( )"]. *)
Lemma no_input_only_spaces_and_parens_witness :
  char_at "( )" 1 = " "%char \/ char_at "( )" 1 = "("%char
  \/ char_at "( )" 1 = ")"%char.
Proof.
  refine (@no_input_only_spaces_and_parens Ref.libc "( )" _ 1%nat _).
  - vm_compute. reflexivity.
  - vm_compute. lia.
Defined.




(** The operands of ["-3!"]. *)
Lemma value_needs_operand_witness :
  exists k,
    (k < line_len "-3!")%nat /\ is_operand (char_at "-3!" k) = true.
Proof.
  refine (@value_needs_operand Ref.libc "-3!" (-6)%float _).
  vm_compute. reflexivity.
Defined.
